(** * The pick-up queue of tf2pickup-pl/server: a model of [QueueService]

    The development follows the [QueueService] class, which comes after the
    [QueueController] class in [src/queue/controllers/queue-controller.ts]:
    the slot layout built from the queue configuration, the operations
    [join], [leave], [ready] and [reset], the life cycle
    [waiting] -> [ready] -> [launching] driven by [updateState], and the
    ready-up timer.

    JavaScript numbers that hold integers are [Z]; a player id is a string
    and an absent property ([undefined], or one removed with [delete]) is
    [None]; the slot array is a list whose positions stand for the identity
    of the slot objects; the callbacks handed to [setTimeout] and the
    continuations of pending promises are kept in an explicit list of
    tasks; what is sent through the web socket and what is passed to
    [gameService.create] is recorded. *)

From Stdlib Require Import ZArith QArith Qround Lia.
From stdpp Require Import base numbers list strings.

Local Open Scope string_scope.
Local Open Scope list_scope.
Local Open Scope Z_scope.

(** ** Data model *)

(** Modelled from the spec: the declarations of [QueueConfig], [QueueSlot]
    and [QueueState] (the files under [queue/models]) are not among the
    sources; the three types below have the fields that the service reads
    and writes and that section 3 of the specification lists.

    [QueueConfig.classes[i]]: a game class and how many players of it a
    team needs. *)
Record GameClass := mkGameClass {
  name : string;
  count : Z;
}.

(** [QueueConfig], as read through [queueConfigService.queueConfig]. The
    field [readyUpTimeout] (milliseconds) is [readyUpTimeoutMs] here, the
    method of the service keeps the name. *)
Record QueueConfig := mkQueueConfig {
  teamCount : Z;
  classes : list GameClass;
  readyUpTimeoutMs : Z;
  maps : list string;
}.

(** [QueueSlot]: [playerId] is absent on a free slot. *)
Record QueueSlot := mkQueueSlot {
  id : Z;
  gameClass : string;
  playerId : option string;
  playerReady : bool;
}.

(** [QueueState = 'waiting' | 'ready' | 'launching']. *)
Inductive QueueState := Waiting | Ready | Launching.

#[global] Instance QueueState_eq_dec : EqDecision QueueState.
Proof. solve_decision. Defined.

(** Two configurations to run the model on: the class layouts are the
    ones declared in the repository ([config6v6], [configTest]); the map
    pools are sample values. *)
Definition config6v6 : QueueConfig :=
  {| teamCount := 2;
     classes := [ mkGameClass "scout" 2; mkGameClass "soldier" 2;
                  mkGameClass "demoman" 1; mkGameClass "medic" 1 ];
     readyUpTimeoutMs := 60 * 1000;
     maps := [ "cp_process_final"; "cp_badlands"; "cp_gullywash_final1" ] |}.

Definition configTest : QueueConfig :=
  {| teamCount := 2;
     classes := [ mkGameClass "soldier" 1 ];
     readyUpTimeoutMs := 10 * 1000;
     maps := [ "cp_badlands"; "cp_process_final" ] |}.

(** The data-model invariant of a configuration: some class, every count
    at least one, at least one team. *)
Definition valid_config (cfg : QueueConfig) : Prop :=
  classes cfg ≠ [] ∧ Forall (λ c, 1 ≤ count c) (classes cfg) ∧ 1 ≤ teamCount cfg.

(** ** Slot layout: [resetSlots] *)

(** The body of the [for] loop of [resetSlots], run [n] more times:
    [tmpSlots.push({ id: lastId++, gameClass, playerReady: false })]. *)
Fixpoint pushSlots (n : nat) (lastId : Z) (gc : string)
    (tmpSlots : list QueueSlot) : Z * list QueueSlot :=
  match n with
  | O => (lastId, tmpSlots)
  | S n' =>
      pushSlots n' (lastId + 1) gc
        (tmpSlots ++ [ {| id := lastId; gameClass := gc;
                          playerId := None; playerReady := false |} ])
  end.

(** One step of the [reduce] over the classes; the counter [lastId] is
    threaded next to the accumulator [prev]. *)
Definition resetSlots_step (cfg : QueueConfig) (acc : Z * list QueueSlot)
    (curr : GameClass) : Z * list QueueSlot :=
  let '(lastId, tmpSlots) :=
    pushSlots (Z.to_nat (count curr * teamCount cfg)) (fst acc) (name curr) [] in
  (lastId, snd acc ++ tmpSlots).

Definition resetSlots (cfg : QueueConfig) : list QueueSlot :=
  snd (fold_left (resetSlots_step cfg) (classes cfg) (0, [])).

(** A slot as [resetSlots] creates it. *)
Definition fresh_slot (i : Z) (gc : string) : QueueSlot :=
  {| id := i; gameClass := gc; playerId := None; playerReady := false |}.

(** The layout in the words of the specification: the classes in configured
    order, [count * teamCount] slots for each with the role of the class,
    numbered from 0 in that order. *)
Definition class_slots (cfg : QueueConfig) (c : GameClass) : nat :=
  Z.to_nat (count c * teamCount cfg).

Definition layout_roles (cfg : QueueConfig) : list string :=
  concat (List.map (λ c, replicate (class_slots cfg c) (name c)) (classes cfg)).

Definition layout_spec (cfg : QueueConfig) : list QueueSlot :=
  imap (λ i, fresh_slot (Z.of_nat i)) (layout_roles cfg).

(** The sum of the per-team counts of the classes. *)
Definition sum_counts (cfg : QueueConfig) : Z :=
  foldr Z.add 0 (count <$> classes cfg).

(** [requiredPlayerCount]. *)
Definition requiredPlayerCount (cfg : QueueConfig) : Z :=
  fold_left (λ prev curr, prev + count curr) (classes cfg) 0 * teamCount cfg.

(** ** The service object and its surroundings *)

(** The fields of [QueueService]. [map] is [undefined] until the first
    [randomizeMap]; [timer] holds the handle returned by [setTimeout] for
    the ready-up timer, until it is removed with [delete]. *)
Record QueueService := mkQueueService {
  slots : list QueueSlot;
  state : QueueState;
  map : option string;
  timer : option nat;
}.

(** A connected socket, the optional [sender] of an operation. *)
Definition Socket := nat.

(** What is sent through [ws]: [QueueSlotUpdate (Some sender) s] is
    [sender.broadcast.emit('queue slot update', s)] (everyone but the
    sender), [QueueSlotUpdate None s] is [ws.emit('queue slot update', s)]. *)
Inductive Event :=
  | QueueSlotsReset (ss : list QueueSlot)
  | QueueMapUpdated (m : option string)
  | QueueStateUpdate (st : QueueState)
  | QueueSlotUpdate (sender : option Socket) (s : QueueSlot).

(** A slot object: the array it was created in ([arr], counting the arrays
    built by [resetSlots]) and its position there. *)
Record SlotRef := mkSlotRef { arr : nat; idx : nat }.

(** What waits in the event loop. *)
Inductive Task :=
  | TUpdateState
      (* setTimeout(() => this.updateState(), 0) *)
  | TReadyUpTimeout (h : nat)
      (* setTimeout(() => this.readyUpTimeout(), readyUpTimeout), handle h *)
  | TLaunchAwait
      (* launch() suspended at await this.gameService.create(...) *)
  | TReset
      (* setTimeout(() => this.reset(), 0) *)
  | TReadyAwait (slot : SlotRef) (sender : option Socket)
      (* ready() suspended at await playerModel.findById(playerId) *).

(** The service together with what it acts on: the slot arrays that
    [resetSlots] replaced (oldest first; a suspended [ready] may still hold
    one of their objects), the pending tasks, the next timer handle, the
    events sent so far and the calls made to [gameService.create]. *)
Record World := mkWorld {
  queue : QueueService;
  detached : list (list QueueSlot);
  tasks : list Task;
  nextHandle : nat;
  emitted : list Event;
  games : list (list QueueSlot * option string);
}.

Definition upd_queue (f : QueueService → QueueService) (w : World) : World :=
  {| queue := f (queue w); detached := detached w; tasks := tasks w;
     nextHandle := nextHandle w; emitted := emitted w; games := games w |}.

Definition set_slots (ss : list QueueSlot) : World → World :=
  upd_queue (λ q, {| slots := ss; state := state q; map := map q; timer := timer q |}).

Definition set_state (st : QueueState) : World → World :=
  upd_queue (λ q, {| slots := slots q; state := st; map := map q; timer := timer q |}).

Definition set_map (m : option string) : World → World :=
  upd_queue (λ q, {| slots := slots q; state := state q; map := m; timer := timer q |}).

Definition set_timer (t : option nat) : World → World :=
  upd_queue (λ q, {| slots := slots q; state := state q; map := map q; timer := t |}).

Definition emit (es : list Event) (w : World) : World :=
  {| queue := queue w; detached := detached w; tasks := tasks w;
     nextHandle := nextHandle w; emitted := emitted w ++ es; games := games w |}.

Definition schedule (t : Task) (w : World) : World :=
  {| queue := queue w; detached := detached w; tasks := tasks w ++ [t];
     nextHandle := nextHandle w; emitted := emitted w; games := games w |}.

(** The errors thrown by the operations, by message. [NullPlayer] is the
    [TypeError] of reading [player.name] on [null]. *)
Inductive Error :=
  | NoSuchPlayer      (* 'no such player' *)
  | PlayerInGame      (* 'player involved in a currently active game' *)
  | NoSuchSlot        (* 'no such slot' *)
  | SlotTaken         (* 'slot already taken' *)
  | CannotUnready     (* 'cannot unready when already readied up' *)
  | QueueNotReady     (* 'queue not ready' *)
  | PlayerNotQueued   (* 'player is not in the queue' *)
  | NullPlayer.

(** An operation ends with a value or a thrown error, and in both cases
    with the world as it left it. *)
Definition Outcome (A : Type) : Type := (Error + A) * World.

(** ** Slots *)

(** Truthiness of [slot.playerId]: absent and the empty string are falsy. *)
Definition truthy (p : option string) : bool :=
  match p with
  | Some s => negb (String.eqb s "")
  | None => false
  end.

Definition set_playerId (p : option string) (s : QueueSlot) : QueueSlot :=
  {| id := id s; gameClass := gameClass s; playerId := p; playerReady := playerReady s |}.

Definition set_playerReady (b : bool) (s : QueueSlot) : QueueSlot :=
  {| id := id s; gameClass := gameClass s; playerId := playerId s; playerReady := b |}.

(** [playerCount] and [readyPlayerCount]. *)
Definition playerCount (ss : list QueueSlot) : Z :=
  fold_left (λ prev curr, if truthy (playerId curr) then prev + 1 else prev) ss 0.

Definition readyPlayerCount (ss : list QueueSlot) : Z :=
  fold_left (λ prev curr, if playerReady curr then prev + 1 else prev) ss 0.

(** The callback of the [forEach] of [join] on one slot:
    [if (s.playerId === playerId) { delete s.playerId; s.playerReady = false }]. *)
Definition vacate_if (p : string) (s : QueueSlot) : QueueSlot :=
  if decide (playerId s = Some p)
  then set_playerReady false (set_playerId None s)
  else s.

(** The callback of the [forEach] of [cleanupQueue] on one slot. *)
Definition cleanup_slot (s : QueueSlot) : QueueSlot :=
  if playerReady s then set_playerReady false s else set_playerId None s.

(** ** The methods of [QueueService] *)

Section Service.

(** [queueConfigService.queueConfig]. *)
Variable cfg : QueueConfig.

Definition slotUpdated (slot : QueueSlot) (sender : option Socket) : World → World :=
  emit [QueueSlotUpdate sender slot].

(** [this.slots = ...] in [resetSlots]: the array in use so far is left
    to whoever still holds it. *)
Definition replace_slots (ss : list QueueSlot) (w : World) : World :=
  {| queue := {| slots := ss; state := state (queue w);
                 map := map (queue w); timer := timer (queue w) |};
     detached := detached w ++ [slots (queue w)]; tasks := tasks w;
     nextHandle := nextHandle w; emitted := emitted w; games := games w |}.

(** [mapPool[k]] for an integer [k]. *)
Definition at_index {A} (l : list A) (k : Z) : option A :=
  if k <? 0 then None else l !! Z.to_nat k.

(** [randomizeMap]; [rnd] is the value returned by [Math.random()]. *)
Definition randomizeMap (rnd : Q) (w : World) : World :=
  let mapPool := filter (λ m, Some m ≠ map (queue w)) (maps cfg) in
  set_map (at_index mapPool (Qfloor (Qmult rnd (inject_Z (Z.of_nat (length mapPool)))))) w.

(** [cleanupQueue]: every slot goes through the callback and is then
    announced. *)
Definition cleanupQueue (w : World) : World :=
  let ss := cleanup_slot <$> slots (queue w) in
  emit (QueueSlotUpdate None <$> ss) (set_slots ss w).

(** [launch], up to its [await]: [gameService.create] is called with the
    slots and the map, and the rest waits for its promise. *)
Definition launch (w : World) : World :=
  schedule TLaunchAwait
    {| queue := queue w; detached := detached w; tasks := tasks w;
       nextHandle := nextHandle w; emitted := emitted w;
       games := games w ++ [(slots (queue w), map (queue w))] |}.

(** [this.timer = setTimeout(...)]: a new handle, a new pending task. *)
Definition start_timer (w : World) : World :=
  let h := nextHandle w in
  set_timer (Some h)
    {| queue := queue w; detached := detached w;
       tasks := tasks w ++ [TReadyUpTimeout h];
       nextHandle := S h; emitted := emitted w; games := games w |}.

Definition onStateChange (oldState newState : QueueState) (w : World) : World :=
  match oldState, newState with
  | Waiting, Ready => start_timer w
  | Ready, Launching => launch (set_timer None w)
  | Launching, Waiting => set_timer None w
  | Ready, Waiting => cleanupQueue w
  | _, _ => w
  end.

Definition setState (st : QueueState) (w : World) : World :=
  if decide (st ≠ state (queue w))
  then emit [QueueStateUpdate st] (set_state st (onStateChange (state (queue w)) st w))
  else w.

Definition updateState (w : World) : World :=
  match state (queue w) with
  | Waiting =>
      if playerCount (slots (queue w)) =? requiredPlayerCount cfg
      then setState Ready w else w
  | Ready =>
      if playerCount (slots (queue w)) =? 0 then setState Waiting w
      else if readyPlayerCount (slots (queue w)) =? requiredPlayerCount cfg
      then setState Launching w else w
  | Launching => setState Waiting w
  end.

Definition readyUpTimeout (w : World) : World :=
  if readyPlayerCount (slots (queue w)) =? requiredPlayerCount cfg
  then setState Launching w
  else setState Waiting w.

Definition reset (rnd : Q) (w : World) : World :=
  let w1 := replace_slots (resetSlots cfg) w in
  let w2 := emit [QueueSlotsReset (slots (queue w1))] w1 in
  let w3 := randomizeMap rnd w2 in
  let w4 := emit [QueueMapUpdated (map (queue w3))] w3 in
  updateState w4.

(** [join], from the point where both lookups have resolved: [player] is
    the document found by [playerModel.findById] (its name), [active]
    tells whether [gameService.activeGameForPlayer] found a game. *)
Definition join (slotId : Z) (p : string) (player : option string)
    (active : bool) (sender : option Socket) (w : World) : Outcome QueueSlot :=
  match player with
  | None => (inl NoSuchPlayer, w)
  | Some _ =>
    if active then (inl PlayerInGame, w) else
    match list_find (λ s, id s = slotId) (slots (queue w)) with
    | None => (inl NoSuchSlot, w)
    | Some (i, slot) =>
      if truthy (playerId slot) then (inl SlotTaken, w) else
      let vacated := filter (λ s, playerId s = Some p) (slots (queue w)) in
      let w1 := emit (QueueSlotUpdate None <$> (vacate_if p <$> vacated))
                  (set_slots (vacate_if p <$> slots (queue w)) w) in
      let slot1 := set_playerId (Some p) (vacate_if p slot) in
      let slot2 := if decide (state (queue w1) = Ready)
                   then set_playerReady true slot1 else slot1 in
      let w2 := set_slots (<[i := slot2]> (slots (queue w1))) w1 in
      (inr slot2, schedule TUpdateState (slotUpdated slot2 sender w2))
    end
  end.

(** [leave]; [inr None] is the [null] returned for a player without slot. *)
Definition leave (p : string) (sender : option Socket) (w : World)
    : Outcome (option QueueSlot) :=
  match list_find (λ s, playerId s = Some p) (slots (queue w)) with
  | Some (i, slot) =>
    if playerReady slot &&
       (bool_decide (state (queue w) = Ready) || bool_decide (state (queue w) = Launching))
    then (inl CannotUnready, w)
    else
      let slot1 := set_playerId None slot in
      let w1 := set_slots (<[i := slot1]> (slots (queue w))) w in
      (inr (Some slot1), schedule TUpdateState (slotUpdated slot1 sender w1))
  | None => (inr None, w)
  end.

(** [ready] when nothing runs during its [await]; [player] is what
    [playerModel.findById] resolves to. *)
Definition ready (p : string) (player : option string)
    (sender : option Socket) (w : World) : Outcome QueueSlot :=
  if decide (state (queue w) ≠ Ready) then (inl QueueNotReady, w) else
  match list_find (λ s, playerId s = Some p) (slots (queue w)) with
  | Some (i, slot) =>
    let slot1 := set_playerReady true slot in
    let w1 := set_slots (<[i := slot1]> (slots (queue w))) w in
    match player with
    | None => (inl NullPlayer, w1)
    | Some _ => (inr slot1, schedule TUpdateState (slotUpdated slot1 sender w1))
    end
  | None => (inl PlayerNotQueued, w)
  end.

(** [ready] in two halves, for runs in which other callbacks are served
    while the lookup is pending. The first half ends at the [await] with
    the slot object in hand. *)
Definition ready_check (p : string) (w : World) : Error + SlotRef :=
  if decide (state (queue w) ≠ Ready) then inl QueueNotReady else
  match list_find (λ s, playerId s = Some p) (slots (queue w)) with
  | Some (i, _) => inr {| arr := length (detached w); idx := i |}
  | None => inl PlayerNotQueued
  end.

Definition deref (r : SlotRef) (w : World) : option QueueSlot :=
  if decide (arr r = length (detached w)) then slots (queue w) !! idx r
  else detached w !! arr r ≫= (λ a, a !! idx r).

Definition assign (r : SlotRef) (s : QueueSlot) (w : World) : World :=
  if decide (arr r = length (detached w))
  then set_slots (<[idx r := s]> (slots (queue w))) w
  else {| queue := queue w;
          detached := alter (λ a, <[idx r := s]> a) (arr r) (detached w);
          tasks := tasks w; nextHandle := nextHandle w;
          emitted := emitted w; games := games w |}.

(** The second half; [None] when [r] denotes no object, which no
    reference handed out by [ready_check] does. *)
Definition ready_resume (r : SlotRef) (player : option string)
    (sender : option Socket) (w : World) : option (Outcome QueueSlot) :=
  slot ← deref r w;
  let slot1 := set_playerReady true slot in
  let w1 := assign r slot1 w in
  match player with
  | None => Some (inl NullPlayer, w1)
  | Some _ => Some (inr slot1, schedule TUpdateState (slotUpdated slot1 sender w1))
  end.

(** The object as built by the field initialisers, and the constructor,
    which calls [reset]. *)
Definition initial_fields : World :=
  {| queue := {| slots := []; state := Waiting; map := None; timer := None |};
     detached := []; tasks := []; nextHandle := 0%nat; emitted := []; games := [] |}.

Definition new_QueueService (rnd : Q) : World := reset rnd initial_fields.

(** ** Runs *)

(** What can happen next: a call of an operation, a pending task being
    served, or the promise that a suspended call waits for being rejected.
    [rnd] and [player] are what [Math.random()] and [playerModel.findById]
    give to the code that asks for them. *)
Inductive Action :=
  | ActJoin (slotId : Z) (p : string) (player : option string)
      (active : bool) (sender : option Socket)
  | ActLeave (p : string) (sender : option Socket)
  | ActReady (p : string) (sender : option Socket)
  | ActReset (rnd : Q)
  | ActFire (k : nat) (rnd : Q) (player : option string)
  | ActReject (k : nat).

(** [Math.random()] returns a number in [0, 1). *)
Definition unit_interval (rnd : Q) : bool :=
  Qle_bool 0 rnd && negb (Qle_bool 1 rnd).

Definition remove_task (k : nat) (w : World) : World :=
  {| queue := queue w; detached := detached w; tasks := delete k (tasks w);
     nextHandle := nextHandle w; emitted := emitted w; games := games w |}.

(** A pending task is served: a callback of [setTimeout] runs, or the
    promise awaited by [launch] or [ready] is fulfilled and the call goes
    on. *)
Definition fire (t : Task) (rnd : Q) (player : option string) (w : World)
    : option World :=
  match t with
  | TUpdateState => Some (updateState w)
  | TReadyUpTimeout _ => Some (readyUpTimeout w)
  | TLaunchAwait => Some (schedule TReset w)
  | TReset => if unit_interval rnd then Some (reset rnd w) else None
  | TReadyAwait r sender => snd <$> ready_resume r player sender w
  end.

(** The awaited promise is rejected: the [await] throws, so [launch]
    ends without scheduling [reset] and [ready] ends without writing to
    the slot. Only a suspended call can end this way. *)
Definition reject (t : Task) (w : World) : option World :=
  match t with
  | TLaunchAwait | TReadyAwait _ _ => Some w
  | TUpdateState | TReadyUpTimeout _ | TReset => None
  end.

(** One step; [None] when the action cannot happen (no such task, a
    random number outside [0, 1)). A call that throws is a step too. *)
Definition exec (a : Action) (w : World) : option World :=
  match a with
  | ActJoin slotId p player active sender =>
      Some (snd (join slotId p player active sender w))
  | ActLeave p sender => Some (snd (leave p sender w))
  | ActReady p sender =>
      match ready_check p w with
      | inl _ => Some w
      | inr r => Some (schedule (TReadyAwait r sender) w)
      end
  | ActReset rnd => if unit_interval rnd then Some (reset rnd w) else None
  | ActFire k rnd player =>
      t ← tasks w !! k; fire t rnd player (remove_task k w)
  | ActReject k =>
      t ← tasks w !! k; reject t (remove_task k w)
  end.

Fixpoint run (trace : list Action) (w : World) : option World :=
  match trace with
  | [] => Some w
  | a :: trace' => w' ← exec a w; run trace' w'
  end.

(** The worlds a service can be in: built by the constructor, then any
    number of steps. *)
Inductive reachable : World → Prop :=
  | reachable_new rnd :
      unit_interval rnd = true → reachable (new_QueueService rnd)
  | reachable_step a w w' :
      reachable w → exec a w = Some w' → reachable w'.

(** *** Orderly runs

    The runs in which three things do not happen: a player with the empty
    string as id joins; something else is served between the lookup of a
    [ready] and its resumption; a ready-up timeout fires while the queue is
    not [ready]. A move of such a run is a step that is in order, or a
    whole [ready]. *)
Inductive Move :=
  | MStep (a : Action)
  | MReady (p : string) (player : option string) (sender : option Socket).

Definition in_order (a : Action) (w : World) : bool :=
  match a with
  | ActJoin _ p _ _ _ => negb (String.eqb p "")
  | ActLeave _ _ | ActReset _ | ActReject _ => true
  | ActReady _ _ => false
  | ActFire k _ _ =>
      match tasks w !! k with
      | Some (TReadyUpTimeout _) => bool_decide (state (queue w) = Ready)
      | Some (TReadyAwait _ _) => false
      | _ => true
      end
  end.

Definition move (m : Move) (w : World) : option World :=
  match m with
  | MStep a => if in_order a w then exec a w else None
  | MReady p player sender => Some (snd (ready p player sender w))
  end.

Fixpoint moves (trace : list Move) (w : World) : option World :=
  match trace with
  | [] => Some w
  | m :: trace' => w' ← move m w; moves trace' w'
  end.

Inductive orderly : World → Prop :=
  | orderly_new rnd :
      unit_interval rnd = true → orderly (new_QueueService rnd)
  | orderly_move m w w' :
      orderly w → move m w = Some w' → orderly w'.

End Service.

(** ** Predicates on slot arrays *)

(** [evolves ss ss']: the same slot objects, where an occupant may have
    gone and flags may have changed. *)
Definition evolves (ss ss' : list QueueSlot) : Prop :=
  Forall2 (λ s s', id s' = id s ∧ gameClass s' = gameClass s ∧
                   (playerId s' = None ∨ playerId s' = playerId s)) ss ss'.

(** What one step can do to the slot array: let it evolve, seat a player
    the way [join] does, or start from a new array. *)
Inductive slots_step (cfg : QueueConfig) (ss : list QueueSlot)
    : list QueueSlot → Prop :=
  | slots_evolve ss' : evolves ss ss' → slots_step cfg ss ss'
  | slots_join i slot slot' p :
      ss !! i = Some slot →
      id slot' = id slot → gameClass slot' = gameClass slot →
      playerId slot' = Some p →
      slots_step cfg ss (<[i := slot']> (vacate_if p <$> ss))
  | slots_fresh ss' : evolves (resetSlots cfg) ss' → slots_step cfg ss ss'.

(** No player sits in two slots. *)
Definition single_occupancy (ss : list QueueSlot) : Prop :=
  ∀ i j si sj p,
    ss !! i = Some si → ss !! j = Some sj →
    playerId si = Some p → playerId sj = Some p → i = j.

(** The slots are those of the configured layout, in order. *)
Definition same_layout (cfg : QueueConfig) (ss : list QueueSlot) : Prop :=
  Forall2 (λ s0 s, id s = id s0 ∧ gameClass s = gameClass s0) (resetSlots cfg) ss.

(** What an orderly run keeps: no slot holds the empty id; while the
    queue is [ready], every confirmed slot has an occupant; while it is
    [launching], every slot is confirmed and has an occupant. *)
Definition occupied (s : QueueSlot) : Prop := truthy (playerId s) = true.

Definition in_good_order (w : World) : Prop :=
  Forall (λ s, playerId s ≠ Some "") (slots (queue w))
  ∧ (state (queue w) = Ready →
       Forall (λ s, playerReady s = true → occupied s) (slots (queue w)))
  ∧ (state (queue w) = Launching →
       Forall (λ s, playerReady s = true ∧ occupied s) (slots (queue w))).

(** What holds when a step enters [ready] or [launching]: the count that
    [updateState] or [readyUpTimeout] compared is the required one. *)
Definition entered_full (cfg : QueueConfig) (w w' : World) : Prop :=
  (state (queue w) ≠ Ready → state (queue w') = Ready →
     playerCount (slots (queue w')) = requiredPlayerCount cfg)
  ∧ (state (queue w) ≠ Launching → state (queue w') = Launching →
     readyPlayerCount (slots (queue w')) = requiredPlayerCount cfg).

(** ** Requests *)

(** The requests served by the socket handlers of [QueueController].
    [serve] gives the outcome of the call that the handler makes. The
    handlers of ['join queue'] and ['leave queue'] pass it on to [done];
    the handler of ['player ready'] does not await [ready], so an error of
    that call is the rejection of its promise and is not sent back. *)
Inductive Request :=
  | JoinQueue (slotId : Z) (p : string) (player : option string) (active : bool)
  | LeaveQueue (p : string)
  | PlayerReady (p : string) (player : option string).

Definition typed_error (e : Error) : bool :=
  match e with
  | NoSuchSlot | SlotTaken | CannotUnready | QueueNotReady | PlayerNotQueued => true
  | NoSuchPlayer | PlayerInGame | NullPlayer => false
  end.

(** [done({ value: slot })] or [done({ error: error.message })]. *)
Definition replied {A} (o : Outcome A) : Outcome (option A) :=
  match o with
  | (inl e, w) => (inl e, w)
  | (inr slot, w) => (inr (Some slot), w)
  end.

Definition serve (req : Request) (sender : option Socket) (w : World)
    : Outcome (option QueueSlot) :=
  match req with
  | JoinQueue slotId p player active =>
      replied (join slotId p player active sender w)
  | LeaveQueue p => leave p sender w
  | PlayerReady p player =>
      replied (ready p player sender w)
  end.

(** ** Runs used as examples *)

(** A configuration with a single map. *)
Definition oneMap : QueueConfig :=
  {| teamCount := 2; classes := [ mkGameClass "soldier" 1 ];
     readyUpTimeoutMs := 10 * 1000; maps := [ "cp_badlands" ] |}.

(** A known player without active game asks for a slot; the [k]-th pending
    task is served; the lookup of a suspended [ready] resolves. *)
Definition join_as (slotId : Z) (p : string) : Action :=
  ActJoin slotId p (Some p) false None.

Definition serve_task (k : nat) : Action := ActFire k 0 None.

Definition resolve_player (k : nat) (p : string) : Action := ActFire k 0 (Some p).

(** The world after a run from a new service ([Math.random()] gave 0). *)
Definition played (cfg : QueueConfig) (trace : list Action) : World :=
  default initial_fields (run cfg trace (new_QueueService cfg 0)).

(** Two players take the two slots of [configTest]; each [updateState]
    scheduled by a [join] runs before the next call. The second one moves
    the queue to [ready] and starts timer 0. *)
Definition queue_filled : list Action :=
  [ join_as 0 "p1"; serve_task 0; join_as 1 "p2"; serve_task 0 ].

Definition one_joined : World :=
  Eval vm_compute in played configTest [ join_as 0 "p1" ].

Definition all_but_last_seated : World :=
  Eval vm_compute in played configTest [ join_as 0 "p1"; serve_task 0; join_as 1 "p2" ].

Definition queue_ready : World := Eval vm_compute in played configTest queue_filled.

(** While the queue is [ready], "p1", who has not confirmed, leaves. *)
Definition p1_left_while_ready : list Action := queue_filled ++ [ ActLeave "p1" None ].

Definition left_while_ready : World :=
  Eval vm_compute in played configTest p1_left_while_ready.

(** "p1" confirms ([ready], its lookup, the [updateState] it scheduled). *)
Definition p1_confirmed : list Action :=
  queue_filled ++ [ ActReady "p1" None; resolve_player 1 "p1"; serve_task 1 ].

Definition one_confirmed : World := Eval vm_compute in played configTest p1_confirmed.

(** ... and then "p2", who has not confirmed, leaves. *)
Definition p1_confirmed_p2_left : list Action := p1_confirmed ++ [ ActLeave "p2" None ].

Definition confirmed_alone : World :=
  Eval vm_compute in played configTest p1_confirmed_p2_left.

(** ... or "p2" confirms too; the [updateState] scheduled by this second
    [ready] is still pending. *)
Definition p1_p2_confirmed : list Action :=
  p1_confirmed ++ [ ActReady "p2" None; resolve_player 1 "p2" ].

Definition both_confirmed : World := Eval vm_compute in played configTest p1_p2_confirmed.

(** A second round within the delay of timer 0: the game is launched,
    [gameService.create] resolves, [reset] runs, "p3" and "p4" fill the new
    queue (which starts timer 1), "p3" confirms. *)
Definition second_round : list Action :=
  p1_p2_confirmed ++
  [ serve_task 1;   (* updateState: ready -> launching, launch() *)
    serve_task 1;   (* gameService.create resolved: reset is scheduled *)
    serve_task 1;   (* reset *)
    join_as 0 "p3"; serve_task 1; join_as 1 "p4"; serve_task 1;
    ActReady "p3" None; resolve_player 2 "p3"; serve_task 2 ].

Definition second_round_ready : World := Eval vm_compute in played configTest second_round.

(** ... and "p4" confirms, which launches the second game. *)
Definition two_rounds : list Action :=
  second_round ++ [ ActReady "p4" None; resolve_player 2 "p4"; serve_task 2 ].

Definition second_launch : World := Eval vm_compute in played oneMap two_rounds.

(** The first launch as an orderly run: each [ready] resolves at once. *)
Definition launch_in_order : list Move :=
  [ MStep (join_as 0 "p1"); MStep (serve_task 0);
    MStep (join_as 1 "p2"); MStep (serve_task 0);
    MReady "p1" (Some "p1") None; MStep (serve_task 1);
    MReady "p2" (Some "p2") None; MStep (serve_task 1) ].

Definition launched : World :=
  Eval vm_compute in
    default initial_fields (moves configTest launch_in_order (new_QueueService configTest 0)).

(** "p1" has confirmed; "p2" calls [ready] and, while the lookup of that
    call is pending, leaves; then the lookup resolves and the
    [updateState] scheduled by the [leave] runs. *)
Definition p2_overtaken : list Action :=
  p1_confirmed ++
  [ ActReady "p2" None; ActLeave "p2" None; resolve_player 1 "p2"; serve_task 1 ].

Definition overtaken_launch : World := Eval vm_compute in played configTest p2_overtaken.

(** Both players confirm before either [updateState] runs: the first one
    launches, the second one takes the queue back to [waiting]; "p1"
    leaves, and timer 0 fires. *)
Definition timeout_after_launch : list Action :=
  queue_filled ++
  [ ActReady "p1" None; resolve_player 1 "p1"; ActReady "p2" None; resolve_player 2 "p2";
    serve_task 1; serve_task 1; ActLeave "p1" None; serve_task 0 ].

Definition relaunched : World := Eval vm_compute in played configTest timeout_after_launch.

(** ** Further notions *)

(** The calls that clients make, as opposed to [reset] and to the tasks
    that the event loop serves. *)
Definition is_call (a : Action) : bool :=
  match a with
  | ActJoin _ _ _ _ _ | ActLeave _ _ | ActReady _ _ => true
  | ActReset _ | ActFire _ _ _ | ActReject _ => false
  end.

(** The handler of ['player left'] in [QueueController.setupWs]: [leave]
    without sender; an error is logged and dropped. *)
Definition player_left (p : string) (w : World) : World := snd (leave p None w).

(** A slot update sent to every client. *)
Definition is_slot_update_to_all (e : Event) : Prop :=
  ∃ s, e = QueueSlotUpdate None s.

(** While the queue is [ready], the timeout started for it is pending. *)
Definition deadline_pending (w : World) : Prop :=
  state (queue w) = Ready →
  ∃ h, timer (queue w) = Some h ∧ TReadyUpTimeout h ∈ tasks w.

(** What a method can add to the calls of [gameService.create]: nothing,
    or the current slots and map at a moment when as many slots are
    confirmed as players are required. *)
Definition hands_over (cfg : QueueConfig) (w w' : World) : Prop :=
  games w' = games w
  ∨ games w' = games w ++ [(slots (queue w), map (queue w))]
    ∧ readyPlayerCount (slots (queue w)) = requiredPlayerCount cfg.

Definition roster_ok (cfg : QueueConfig) (g : list QueueSlot * option string) : Prop :=
  same_layout cfg g.1 ∧ readyPlayerCount g.1 = requiredPlayerCount cfg.

(** A configuration without classes, and the world of [configTest] after
    the first launch. *)
Definition configEmpty : QueueConfig :=
  {| teamCount := 2; classes := []; readyUpTimeoutMs := 10 * 1000; maps := [ "cp_badlands" ] |}.

Definition first_launch : World :=
  Eval vm_compute in played configTest (p1_p2_confirmed ++ [ serve_task 1 ]).

(** ** Games: [GameController] *)

Module GameController.

(** The fields of a queue slot, under names that stay free in this
    module. *)
Local Abbreviation slot_playerId := playerId.
Local Abbreviation slot_gameClass := gameClass.

(** [GamePlayer]. *)
Record GamePlayer := mkGamePlayer {
  playerId : option string;
  gameClass : string;
  teamId : string;
}.

(** The values [game.state] takes: 'launching', 'started', 'ended'. *)
Inductive GameState := launching | started | ended.

#[global] Instance GameState_eq_dec : EqDecision GameState.
Proof. solve_decision. Defined.

(** A [Game] document; [id] is the id Mongoose gave it, [connectString] is
    [None] while it is undefined and after it is set to [null]. *)
Record Game := mkGame {
  id : string;
  map : string;
  state : GameState;
  teams : list (string * string);
  slots : list GamePlayer;
  players : list (option string);
  connectString : option string;
}.

(** What is sent through [ioProvider.io]. *)
Inductive GameEvent :=
  | GameCreated (g : Game)
  | GameUpdated (g : Game).

(** The callbacks that [create] hands to [setTimeout]. *)
Inductive GameTask :=
  | UpdateConnectString (gameId : string) (connectString : string)
  | OnGameStarted (gameId : string)
  | OnGameEnded (gameId : string).

(** The collection of games in insertion order, the pending timeouts with
    their delays in milliseconds, and the events sent. *)
Record Db := mkDb {
  collection : list Game;
  timeouts : list (Z * GameTask);
  sent : list GameEvent;
}.

(** A callback that reads a field of [null] ends in a [TypeError]. *)
Inductive Failure := TypeError.

(** The template literal of [team % 2]. *)
Definition show_bit (z : Z) : string := if z =? 0 then "0" else "1".

(** [queueSlots.map(s => ({ ..., teamId: `${team++ % 2}` }))], from the
    current value of the counter [team]. *)
Fixpoint assign_teams (team : Z) (queueSlots : list QueueSlot) : list GamePlayer :=
  match queueSlots with
  | [] => []
  | s :: rest =>
      {| playerId := slot_playerId s; gameClass := slot_gameClass s;
         teamId := show_bit (team mod 2) |} :: assign_teams (team + 1) rest
  end.

(** The document built by [new Game({...})]. *)
Definition new_game (gid : string) (queueSlots : list QueueSlot) : Game :=
  {| id := gid; map := "cp_badlands"; state := launching;
     teams := [ ("0", "RED"); ("1", "BLU") ];
     slots := assign_teams 0 queueSlots;
     players := List.map slot_playerId queueSlots;
     connectString := None |}.

(** [create]; [gid] is the id of the new document, which [game.save()] adds
    to the collection. *)
Definition create (cfg : QueueConfig) (queueSlots : list QueueSlot) (gid : string)
    (db : Db) : Game * Db :=
  let game := new_game gid queueSlots in
  (game,
   {| collection := collection db ++ [game];
      timeouts := timeouts db ++
        [ (30 * 1000,
           UpdateConnectString gid "connect melkor.tf:27016; password amarenka_mniam");
          (60 * 1000, OnGameStarted gid);
          (120 * 1000, OnGameEnded gid) ];
      sent := sent db ++ [GameCreated game] |}).

(** [/launching|started/] on a state. *)
Definition is_active (st : GameState) : bool :=
  match st with launching | started => true | ended => false end.

(** [Game.findOne({ state: /launching|started/, players: playerId })]. *)
Definition activeGameForPlayer (p : string) (db : Db) : option Game :=
  snd <$> list_find (λ g, is_active (state g) = true ∧ Some p ∈ players g) (collection db).

(** [Game.findById]: the document and its place in the collection. *)
Definition findById (gameId : string) (db : Db) : option (nat * Game) :=
  list_find (λ g, id g = gameId) (collection db).

(** The body shared by the three callbacks: the document found is changed,
    saved in its place and announced; on [null] the first assignment throws
    and nothing is written. [game.save()] is not awaited there; its write
    is taken to be in the collection when the next callback reads it. *)
Definition update_game (gameId : string) (f : Game → Game) (db : Db) : Failure + Db :=
  match findById gameId db with
  | None => inl TypeError
  | Some (i, game) =>
      inr {| collection := <[i := f game]> (collection db);
             timeouts := timeouts db;
             sent := sent db ++ [GameUpdated (f game)] |}
  end.

Definition set_connectString (cs : option string) (g : Game) : Game :=
  {| id := id g; map := map g; state := state g; teams := teams g; slots := slots g;
     players := players g; connectString := cs |}.

Definition set_state (st : GameState) (g : Game) : Game :=
  {| id := id g; map := map g; state := st; teams := teams g; slots := slots g;
     players := players g; connectString := connectString g |}.

Definition updateConnectString (gameId connectString : string) : Db → Failure + Db :=
  update_game gameId (set_connectString (Some connectString)).

Definition onGameStarted (gameId : string) : Db → Failure + Db :=
  update_game gameId (set_state started).

Definition onGameEnded (gameId : string) : Db → Failure + Db :=
  update_game gameId (λ g, set_connectString None (set_state ended g)).

(** A timeout fires. *)
Definition run_task (t : GameTask) : Db → Failure + Db :=
  match t with
  | UpdateConnectString gameId cs => updateConnectString gameId cs
  | OnGameStarted gameId => onGameStarted gameId
  | OnGameEnded gameId => onGameEnded gameId
  end.

Fixpoint run_tasks (ts : list GameTask) (db : Db) : Failure + Db :=
  match ts with
  | [] => inr db
  | t :: ts' =>
      match run_task t db with
      | inl e => inl e
      | inr db' => run_tasks ts' db'
      end
  end.

(** The game a callback is about. *)
Definition task_game (t : GameTask) : string :=
  match t with
  | UpdateConnectString gameId _ | OnGameStarted gameId | OnGameEnded gameId => gameId
  end.

(** How many players of class [gc] a roster puts into team [t]. *)
Definition tally (gc t : string) (gs : list GamePlayer) : nat :=
  length (filter (λ g, gameClass g = gc ∧ teamId g = t) gs).

(** The same count on the list of classes of the slots, the first of which
    gets the team of the counter value [team]. *)
Fixpoint tally_roles (gc t : string) (team : Z) (roles : list string) : nat :=
  match roles with
  | [] => 0
  | r :: rest =>
      ((if decide (r = gc ∧ show_bit (team mod 2) = t) then 1 else 0)
       + tally_roles gc t (team + 1) rest)%nat
  end.

(** The players a configuration asks for in class [gc], per team. *)
Definition per_team (cfg : QueueConfig) (gc : string) : nat :=
  foldr Nat.add 0%nat
    ((λ c, if decide (name c = gc) then Z.to_nat (count c) else 0%nat) <$> classes cfg).

End GameController.


(** A collection with one game that has ended, and the roster of the first
    launch of [configTest]. *)
Definition old_game : GameController.Game :=
  GameController.set_state GameController.ended
    (GameController.new_game "g0" [ mkQueueSlot 0 "soldier" (Some "p8") true;
                                    mkQueueSlot 1 "soldier" (Some "p9") true ]).

Definition one_old_game : GameController.Db :=
  {| GameController.collection := [ old_game ];
     GameController.timeouts := []; GameController.sent := [] |}.

Definition first_roster : list QueueSlot :=
  [ mkQueueSlot 0 "soldier" (Some "p1") true; mkQueueSlot 1 "soldier" (Some "p2") true ].

(** ** Earlier forms of the queue *)

(** The class [Queue] of [src/queue/queue.ts]: no map, no timer, no launch.
    It runs in the same kind of world, of which it uses the slots, the life
    cycle, the pending [updateState] tasks and the events. The
    configuration, a field of the class, is a parameter here. *)
Module Queue.
Section Methods.

Variable cfg : QueueConfig.

Definition join (slotId : Z) (p : string) (sender : option Socket) (w : World)
    : Outcome QueueSlot :=
  match list_find (λ s, id s = slotId) (slots (queue w)) with
  | None => (inl NoSuchSlot, w)
  | Some (i, slot) =>
    if truthy (playerId slot) then (inl SlotTaken, w) else
    let vacated := filter (λ s, playerId s = Some p) (slots (queue w)) in
    let w1 := emit (QueueSlotUpdate None <$> (vacate_if p <$> vacated))
                (set_slots (vacate_if p <$> slots (queue w)) w) in
    let slot1 := set_playerId (Some p) (vacate_if p slot) in
    let slot2 := if decide (state (queue w1) = Ready)
                 then set_playerReady true slot1 else slot1 in
    let w2 := set_slots (<[i := slot2]> (slots (queue w1))) w1 in
    (inr slot2, schedule TUpdateState (slotUpdated slot2 sender w2))
  end.

Definition leave (p : string) (sender : option Socket) (w : World)
    : Outcome (option QueueSlot) :=
  match list_find (λ s, playerId s = Some p) (slots (queue w)) with
  | Some (i, slot) =>
    if bool_decide (state (queue w) = Ready) && playerReady slot
    then (inl CannotUnready, w)
    else
      let slot1 := set_playerReady false (set_playerId None slot) in
      let w1 := set_slots (<[i := slot1]> (slots (queue w))) w in
      (inr (Some slot1), schedule TUpdateState (slotUpdated slot1 sender w1))
  | None => (inr None, w)
  end.

Definition ready (p : string) (sender : option Socket) (w : World)
    : Outcome QueueSlot :=
  if decide (state (queue w) ≠ Ready) then (inl QueueNotReady, w) else
  match list_find (λ s, playerId s = Some p) (slots (queue w)) with
  | Some (i, slot) =>
    let slot1 := set_playerReady true slot in
    let w1 := set_slots (<[i := slot1]> (slots (queue w))) w in
    (inr slot1, schedule TUpdateState (slotUpdated slot1 sender w1))
  | None => (inl PlayerNotQueued, w)
  end.

Definition setState (st : QueueState) (w : World) : World :=
  if decide (st ≠ state (queue w))
  then emit [QueueStateUpdate st] (set_state st w)
  else w.

Definition updateState (w : World) : World :=
  match state (queue w) with
  | Waiting =>
      if playerCount (slots (queue w)) =? requiredPlayerCount cfg
      then setState Ready w else w
  | Ready =>
      if playerCount (slots (queue w)) =? 0 then setState Waiting w else w
  | Launching => w
  end.

Definition reset (w : World) : World :=
  updateState (replace_slots (resetSlots cfg) w).

(** The constructor only builds the slots. *)
Definition new_Queue : World := replace_slots (resetSlots cfg) initial_fields.

(** The calls of the socket handlers (['disconnect'] is a [leave] without
    sender), [reset], and a pending [updateState] being served. *)
Inductive Action :=
  | ActJoin (slotId : Z) (p : string) (sender : option Socket)
  | ActLeave (p : string) (sender : option Socket)
  | ActReady (p : string) (sender : option Socket)
  | ActReset
  | ActFire (k : nat).

Definition exec (a : Action) (w : World) : option World :=
  match a with
  | ActJoin slotId p sender => Some (snd (join slotId p sender w))
  | ActLeave p sender => Some (snd (leave p sender w))
  | ActReady p sender => Some (snd (ready p sender w))
  | ActReset => Some (reset w)
  | ActFire k =>
      match tasks w !! k with
      | Some TUpdateState => Some (updateState (remove_task k w))
      | _ => None
      end
  end.

Fixpoint run (trace : list Action) (w : World) : option World :=
  match trace with
  | [] => Some w
  | a :: trace' => w' ← exec a w; run trace' w'
  end.

Inductive reachable : World → Prop :=
  | reachable_new : reachable new_Queue
  | reachable_step a w w' : reachable w → exec a w = Some w' → reachable w'.

End Methods.
End Queue.

(** The class [Queue] of [src/unnamed/part_001]: the queue with the ready-up
    timer and the launch, before the map and before players were evicted
    on timeout. [join] and [ready] are those of [Queue] above. *)
Module TimedQueue.
Section Methods.

Variable cfg : QueueConfig.

Definition leave (p : string) (sender : option Socket) (w : World)
    : Outcome (option QueueSlot) :=
  match list_find (λ s, playerId s = Some p) (slots (queue w)) with
  | Some (i, slot) =>
    if bool_decide (state (queue w) ≠ Waiting) && playerReady slot
    then (inl CannotUnready, w)
    else
      let slot1 := set_playerId None slot in
      let w1 := set_slots (<[i := slot1]> (slots (queue w))) w in
      (inr (Some slot1), schedule TUpdateState (slotUpdated slot1 sender w1))
  | None => (inr None, w)
  end.

(** [launch], up to its [await]: [createGame] is called with the
    configuration and the slots (no map). *)
Definition launch (w : World) : World :=
  schedule TLaunchAwait
    {| queue := queue w; detached := detached w; tasks := tasks w;
       nextHandle := nextHandle w; emitted := emitted w;
       games := games w ++ [(slots (queue w), None)] |}.

Definition onStateChange (oldState newState : QueueState) (w : World) : World :=
  emit [QueueStateUpdate newState]
    match oldState, newState with
    | Waiting, Ready => start_timer w
    | Ready, Launching => launch (set_timer None w)
    | Launching, Waiting => set_timer None w
    | _, _ => w
    end.

Definition setState (st : QueueState) (w : World) : World :=
  if decide (st ≠ state (queue w))
  then set_state st (onStateChange (state (queue w)) st w)
  else w.

Definition updateState (w : World) : World :=
  match state (queue w) with
  | Waiting =>
      if playerCount (slots (queue w)) =? requiredPlayerCount cfg
      then setState Ready w else w
  | Ready =>
      if playerCount (slots (queue w)) =? 0 then setState Waiting w
      else if readyPlayerCount (slots (queue w)) =? requiredPlayerCount cfg
      then setState Launching w else w
  | Launching => setState Waiting w
  end.

Definition readyUpTimeout (w : World) : World :=
  if readyPlayerCount (slots (queue w)) =? requiredPlayerCount cfg
  then setState Launching w
  else
    let ss := set_playerReady false <$> slots (queue w) in
    setState Waiting (emit (QueueSlotUpdate None <$> ss) (set_slots ss w)).

Definition reset (w : World) : World :=
  let w1 := replace_slots (resetSlots cfg) w in
  updateState (emit [QueueSlotsReset (slots (queue w1))] w1).

End Methods.
End TimedQueue.

(** Every confirmed slot has an occupant. *)
Definition confirmed_occupied (ss : list QueueSlot) : Prop :=
  Forall (λ s, playerReady s = true → playerId s ≠ None) ss.

(** In the first form of the queue: both players of [configTest] are
    seated and the queue is ready; then both have left and the two
    [updateState] tasks of the [leave] calls are pending. *)
Definition plain_filled : list Queue.Action :=
  [ Queue.ActJoin 0 "p1" None; Queue.ActFire 0; Queue.ActJoin 1 "p2" None; Queue.ActFire 0 ].

Definition plain_ready : World :=
  Eval vm_compute in
    default initial_fields (Queue.run configTest plain_filled (Queue.new_Queue configTest)).

Definition plain_deserted : World :=
  Eval vm_compute in
    default initial_fields
      (Queue.run configTest
         (plain_filled ++ [ Queue.ActLeave "p1" None; Queue.ActLeave "p2" None ])
         (Queue.new_Queue configTest)).

(** * Properties *)

(** ** The slot layout *)

Example resetSlots_configTest :
  resetSlots configTest =
  [ mkQueueSlot 0 "soldier" None false; mkQueueSlot 1 "soldier" None false ].
Proof. reflexivity. Qed.

Example resetSlots_config6v6_ids :
  List.map id (resetSlots config6v6) = [0;1;2;3;4;5;6;7;8;9;10;11].
Proof. reflexivity. Qed.

Lemma pushSlots_spec n lastId gc tmpSlots :
  pushSlots n lastId gc tmpSlots =
  (lastId + Z.of_nat n,
   tmpSlots ++ ((λ i, fresh_slot (lastId + Z.of_nat i) gc) <$> seq 0 n)).
Proof.
  revert lastId tmpSlots. induction n as [|n IH]; intros lastId tmpSlots.
  - simpl. by rewrite Z.add_0_r, app_nil_r.
  - cbn [pushSlots]. rewrite IH. f_equal; [lia|].
    rewrite <- app_assoc. f_equal. cbn [seq fmap list_fmap app].
    rewrite Z.add_0_r. f_equal.
    rewrite <- fmap_S_seq, <- list_fmap_compose.
    apply list_fmap_ext. intros _ i _. cbn. f_equal. lia.
Qed.

Lemma imap_replicate {A B} (g : nat → A → B) n x :
  imap g (replicate n x) = (λ i, g i x) <$> seq 0 n.
Proof.
  revert g. induction n as [|n IH]; intros g; [done|].
  cbn [replicate imap seq fmap list_fmap]. f_equal.
  rewrite IH, <- fmap_S_seq, <- list_fmap_compose. done.
Qed.

Lemma resetSlots_fold cfg cls roles0 :
  fold_left (resetSlots_step cfg) cls
    (Z.of_nat (length roles0), imap (λ i, fresh_slot (Z.of_nat i)) roles0) =
  let roles := roles0 ++ concat (List.map (λ c, replicate (class_slots cfg c) (name c)) cls) in
  (Z.of_nat (length roles), imap (λ i, fresh_slot (Z.of_nat i)) roles).
Proof.
  revert roles0. induction cls as [|c cls IH]; intros roles0.
  - cbn. by rewrite app_nil_r.
  - cbn [fold_left List.map concat]. unfold resetSlots_step at 2. cbn [fst snd].
    rewrite pushSlots_spec. cbn [app].
    specialize (IH (roles0 ++ replicate (class_slots cfg c) (name c))).
    rewrite length_app, length_replicate, imap_app, imap_replicate in IH.
    rewrite Nat2Z.inj_add in IH. fold (class_slots cfg c).
    cbv zeta in IH |- *. rewrite <- app_assoc in IH. rewrite <- IH.
    f_equal. f_equal. f_equal. apply list_fmap_ext. intros _ i _. cbn.
    f_equal. lia.
Qed.

Lemma resetSlots_layout_spec cfg : resetSlots cfg = layout_spec cfg.
Proof.
  unfold resetSlots.
  change (0, @nil QueueSlot) with
    (Z.of_nat (length (@nil string)), imap (λ i, fresh_slot (Z.of_nat i)) []).
  by rewrite resetSlots_fold.
Qed.

Lemma fold_left_counts cls z :
  fold_left (λ prev curr, prev + count curr) cls z = z + foldr Z.add 0 (count <$> cls).
Proof.
  revert z. induction cls as [|c cls IH]; intros z; cbn; [lia|]. rewrite IH. lia.
Qed.

Lemma requiredPlayerCount_sum cfg :
  requiredPlayerCount cfg = teamCount cfg * sum_counts cfg.
Proof. unfold requiredPlayerCount, sum_counts. rewrite fold_left_counts. lia. Qed.

Lemma length_layout_roles cfg :
  Forall (λ c, 0 ≤ count c * teamCount cfg) (classes cfg) →
  Z.of_nat (length (layout_roles cfg)) = teamCount cfg * sum_counts cfg.
Proof.
  unfold layout_roles, sum_counts. induction 1 as [|c cls Hc _ IH]; cbn; [lia|].
  rewrite length_app, length_replicate, Nat2Z.inj_add, IH.
  unfold class_slots. lia.
Qed.

Lemma layout_spec_ids cfg :
  id <$> layout_spec cfg = Z.of_nat <$> seq 0 (length (layout_spec cfg)).
Proof.
  unfold layout_spec. rewrite length_imap.
  generalize (layout_roles cfg). intros l.
  apply list_eq. intros i. rewrite !list_lookup_fmap, list_lookup_imap.
  destruct (l !! i) as [gc|] eqn:E; cbn.
  - rewrite lookup_seq_lt; [done|]. by eapply lookup_lt_Some.
  - rewrite lookup_seq_ge; [done|]. by eapply lookup_ge_None.
Qed.

Lemma valid_config_nonneg cfg :
  valid_config cfg → Forall (λ c, 0 ≤ count c * teamCount cfg) (classes cfg).
Proof.
  intros (_ & Hc & Ht). eapply Forall_impl; [exact Hc|]. cbn. intros c Hc'. nia.
Qed.

(** C8. For a valid configuration, [resetSlots] is the layout of the
    specification: the classes in configured order, each with exactly
    [count * teamCount] slots of its role, ids running from 0; the number
    of slots is [teamCount * sum of the counts], and the ids are
    0, 1, ..., N-1. *)
Theorem resetSlots_layout cfg :
  valid_config cfg →
  resetSlots cfg = layout_spec cfg
  ∧ Forall (λ c, Z.of_nat (class_slots cfg c) = count c * teamCount cfg) (classes cfg)
  ∧ Z.of_nat (length (resetSlots cfg)) = teamCount cfg * sum_counts cfg
  ∧ id <$> resetSlots cfg = Z.of_nat <$> seq 0 (length (resetSlots cfg)).
Proof.
  intros Hv. pose proof (valid_config_nonneg cfg Hv) as Hnn.
  rewrite resetSlots_layout_spec. split_and!.
  - done.
  - eapply Forall_impl; [exact Hnn|]. cbn. intros c Hc. unfold class_slots. lia.
  - unfold layout_spec. rewrite length_imap. by apply length_layout_roles.
  - apply layout_spec_ids.
Qed.

(** The layout of the 6v6 configuration, by C8. *)
Lemma resetSlots_layout_witness :
  resetSlots config6v6 = layout_spec config6v6
  ∧ Forall (λ c, Z.of_nat (class_slots config6v6 c) = count c * teamCount config6v6)
      (classes config6v6)
  ∧ Z.of_nat (length (resetSlots config6v6)) = teamCount config6v6 * sum_counts config6v6
  ∧ id <$> resetSlots config6v6 = Z.of_nat <$> seq 0 (length (resetSlots config6v6)).
Proof.
  apply (resetSlots_layout config6v6).
  split_and!; [discriminate | repeat constructor; cbn; lia | cbn; lia].
Defined.

(** ** How the slots change in a step *)

Lemma evolves_refl ss : evolves ss ss.
Proof. apply Forall2_same_length_lookup_2; [done|]. intros i s s' ? ?. naive_solver. Qed.

Lemma evolves_trans ss1 ss2 ss3 : evolves ss1 ss2 → evolves ss2 ss3 → evolves ss1 ss3.
Proof.
  unfold evolves. intros H12 H23.
  eapply Forall2_trans; [| exact H12 | exact H23].
  cbn. intros s1 s2 s3 (?&?&Ha) (?&?&Hb). split_and!; [congruence..|].
  destruct Hb as [Hb|Hb]; [by left|]. destruct Ha; [left|right]; congruence.
Qed.

Lemma evolves_fmap f ss :
  (∀ s, id (f s) = id s ∧ gameClass (f s) = gameClass s ∧
        (playerId (f s) = None ∨ playerId (f s) = playerId s)) →
  evolves ss (f <$> ss).
Proof.
  intros Hf. unfold evolves. apply Forall2_fmap_r, Forall_Forall2_diag, Forall_forall.
  intros s _. apply Hf.
Qed.

Lemma evolves_insert ss i slot slot' :
  ss !! i = Some slot →
  id slot' = id slot → gameClass slot' = gameClass slot →
  playerId slot' = None ∨ playerId slot' = playerId slot →
  evolves ss (<[i := slot']> ss).
Proof.
  intros Hi ? ? ?. unfold evolves.
  rewrite <- (list_insert_id ss i slot Hi) at 1.
  apply Forall2_insert; [apply evolves_refl | done].
Qed.

Lemma evolves_cleanup ss : evolves ss (cleanup_slot <$> ss).
Proof.
  apply evolves_fmap. intros s. unfold cleanup_slot.
  destruct (playerReady s); cbn; auto.
Qed.

Section Steps.
Variable cfg : QueueConfig.

Lemma setState_slots st w :
  evolves (slots (queue w)) (slots (queue (setState st w))).
Proof.
  unfold setState. case_decide; [|apply evolves_refl].
  destruct (state (queue w)), st; cbn; try apply evolves_refl; apply evolves_cleanup.
Qed.

Lemma updateState_slots w :
  evolves (slots (queue w)) (slots (queue (updateState cfg w))).
Proof.
  unfold updateState.
  repeat case_match; try apply evolves_refl; apply setState_slots.
Qed.

Lemma readyUpTimeout_slots w :
  evolves (slots (queue w)) (slots (queue (readyUpTimeout cfg w))).
Proof. unfold readyUpTimeout. case_match; apply setState_slots. Qed.

Lemma reset_slots rnd w :
  evolves (resetSlots cfg) (slots (queue (reset cfg rnd w))).
Proof.
  unfold reset. cbv zeta.
  match goal with |- evolves _ (slots (queue (updateState _ ?w1))) =>
    change (resetSlots cfg) with (slots (queue w1)) end.
  apply updateState_slots.
Qed.

Lemma join_slots slotId p player active sender w :
  slots_step cfg (slots (queue w))
    (slots (queue (snd (join slotId p player active sender w)))).
Proof.
  unfold join. repeat case_match; cbn [snd]; try (apply slots_evolve, evolves_refl).
  - cbn. match goal with H : list_find _ _ = Some _ |- _ =>
      apply list_find_Some in H; destruct H as (Hi & Hid & _) end.
    eapply (slots_join _ _ _ _ _ p Hi); unfold vacate_if;
      destruct (decide (playerId q = Some p)); reflexivity.
  - cbn. match goal with H : list_find _ _ = Some _ |- _ =>
      apply list_find_Some in H; destruct H as (Hi & Hid & _) end.
    eapply (slots_join _ _ _ _ _ p Hi); unfold vacate_if;
      destruct (decide (playerId q = Some p)); reflexivity.
Qed.

Lemma leave_slots p sender w :
  evolves (slots (queue w)) (slots (queue (snd (leave p sender w)))).
Proof.
  unfold leave. repeat case_match; cbn [snd]; try apply evolves_refl.
  cbn. match goal with H : list_find _ _ = Some _ |- _ =>
      apply list_find_Some in H; destruct H as (Hi & _) end.
  eapply evolves_insert; [done|done|done|]. by left.
Qed.

Lemma ready_resume_slots r player sender w o :
  ready_resume r player sender w = Some o →
  evolves (slots (queue w)) (slots (queue (snd o))).
Proof.
  unfold ready_resume, deref, assign. intros H.
  destruct (decide (arr r = length (detached w))) as [E|E].
  - destruct (slots (queue w) !! idx r) as [slot|] eqn:Hs; [|done]. cbn in H.
    destruct player; inversion H; subst; cbn;
      (eapply evolves_insert; [done|done|done|]; by right).
  - destruct (detached w !! arr r ≫= _); [|done]. cbn in H.
    destruct player; inversion H; subst; cbn; apply evolves_refl.
Qed.

(** A rejected promise only takes the suspended call off the list. *)
Lemma exec_reject k w w' :
  exec cfg (ActReject k) w = Some w' →
  w' = remove_task k w
  ∧ (tasks w !! k = Some TLaunchAwait
     ∨ ∃ r sender, tasks w !! k = Some (TReadyAwait r sender)).
Proof.
  cbn [exec]. destruct (tasks w !! k) as [t|]; [|done]. cbn.
  destruct t; cbn; intros H; inversion H; subst; eauto.
Qed.

Lemma exec_slots a w w' :
  exec cfg a w = Some w' → slots_step cfg (slots (queue w)) (slots (queue w')).
Proof.
  destruct a as [slotId p player active sender | p sender | p sender | rnd
                | k rnd player | k];
    [| | | | |intros H; apply exec_reject in H as [-> _];
              apply slots_evolve, evolves_refl];
    cbn [exec]; intros H.
  - inversion H; subst. apply join_slots.
  - inversion H; subst. apply slots_evolve, leave_slots.
  - destruct (ready_check p w); inversion H; subst; apply slots_evolve, evolves_refl.
  - destruct (unit_interval rnd); inversion H; subst. apply slots_fresh, reset_slots.
  - destruct (tasks w !! k) as [t|]; [|done]. cbn in H.
    destruct t; cbn [fire] in H.
    + inversion H; subst. apply slots_evolve, (updateState_slots (remove_task k w)).
    + inversion H; subst. apply slots_evolve, (readyUpTimeout_slots (remove_task k w)).
    + inversion H; subst. apply slots_evolve, evolves_refl.
    + destruct (unit_interval rnd); inversion H; subst. apply slots_fresh, reset_slots.
    + destruct (ready_resume slot player sender (remove_task k w)) as [o|] eqn:Ho; [|done].
      inversion H; subst. apply slots_evolve.
      apply (ready_resume_slots _ _ _ _ _ Ho).
Qed.
End Steps.

Lemma reachable_slots_ind cfg (P : list QueueSlot → Prop) :
  (∀ ss', evolves (resetSlots cfg) ss' → P ss') →
  (∀ ss ss', P ss → slots_step cfg ss ss' → P ss') →
  ∀ w, reachable cfg w → P (slots (queue w)).
Proof.
  intros Hnew Hstep w Hw. induction Hw as [rnd _|a w w' _ IH Hexec].
  - apply Hnew, reset_slots.
  - eapply Hstep; [exact IH|]. by eapply exec_slots.
Qed.

Lemma resetSlots_vacant cfg : Forall (λ s, playerId s = None) (resetSlots cfg).
Proof.
  rewrite resetSlots_layout_spec. unfold layout_spec.
  apply Forall_lookup_2. intros i s. rewrite list_lookup_imap.
  destruct (layout_roles cfg !! i); [|done]. cbn. by intros [= <-].
Qed.

Lemma resetSlots_fresh cfg :
  Forall (λ s, playerId s = None ∧ playerReady s = false) (resetSlots cfg).
Proof.
  rewrite resetSlots_layout_spec. unfold layout_spec.
  apply Forall_lookup_2. intros i s. rewrite list_lookup_imap.
  destruct (layout_roles cfg !! i); [|done]. cbn. by intros [= <-].
Qed.

Lemma evolves_vacant ss ss' :
  Forall (λ s, playerId s = None) ss → evolves ss ss' →
  Forall (λ s, playerId s = None) ss'.
Proof.
  intros Hv He. apply Forall_lookup_2. intros i s' Hi.
  destruct (Forall2_lookup_r _ _ _ _ _ He Hi) as (s & Hs & _ & _ & Hp).
  destruct Hp as [|Hp]; [done|]. rewrite Hp.
  by apply (Forall_lookup_1 _ _ _ _ Hv Hs).
Qed.

Lemma single_occupancy_evolves ss ss' :
  single_occupancy ss → evolves ss ss' → single_occupancy ss'.
Proof.
  intros Hso He i j si sj p Hi Hj Hpi Hpj.
  destruct (Forall2_lookup_r _ _ _ _ _ He Hi) as (si0 & Hi0 & _ & _ & Hi1).
  destruct (Forall2_lookup_r _ _ _ _ _ He Hj) as (sj0 & Hj0 & _ & _ & Hj1).
  destruct Hi1 as [?|Hi1]; [congruence|]. destruct Hj1 as [?|Hj1]; [congruence|].
  eapply (Hso i j si0 sj0 p); congruence.
Qed.

Lemma vacate_if_other p s q :
  playerId (vacate_if p s) = Some q → q ≠ p ∧ playerId s = Some q.
Proof.
  unfold vacate_if. destruct (decide (playerId s = Some p)) as [E|E]; cbn; [done|].
  intros Hq. split; [|done]. congruence.
Qed.

Lemma single_occupancy_join ss i slot' p :
  single_occupancy ss → playerId slot' = Some p →
  single_occupancy (<[i := slot']> (vacate_if p <$> ss)).
Proof.
  intros Hso Hp a b sa sb q Ha Hb Hqa Hqb.
  apply list_lookup_insert_Some in Ha, Hb.
  rewrite !list_lookup_fmap in Ha, Hb.
  destruct Ha as [(-> & <- & _)|(Hai & Ha)], Hb as [(-> & <- & _)|(Hbi & Hb)].
  - done.
  - destruct (ss !! b) as [sb0|]; [|done]. cbn in Hb. injection Hb as <-.
    apply vacate_if_other in Hqb. destruct Hqb. congruence.
  - destruct (ss !! a) as [sa0|]; [|done]. cbn in Ha. injection Ha as <-.
    apply vacate_if_other in Hqa. destruct Hqa. congruence.
  - destruct (ss !! a) as [sa0|] eqn:Ea; [|done]. cbn in Ha. injection Ha as <-.
    destruct (ss !! b) as [sb0|] eqn:Eb; [|done]. cbn in Hb. injection Hb as <-.
    apply vacate_if_other in Hqa, Hqb. destruct Hqa, Hqb.
    by eapply (Hso a b sa0 sb0 q).
Qed.

Lemma single_occupancy_vacant ss :
  Forall (λ s, playerId s = None) ss → single_occupancy ss.
Proof.
  intros Hv i j si sj p Hi _ Hp _.
  pose proof (Forall_lookup_1 _ _ _ _ Hv Hi) as Hn. cbn in Hn. congruence.
Qed.

Lemma reachable_single_occupancy cfg w :
  reachable cfg w → single_occupancy (slots (queue w)).
Proof.
  apply reachable_slots_ind.
  - intros ss' He. eapply single_occupancy_vacant, evolves_vacant; [|exact He].
    apply resetSlots_vacant.
  - intros ss ss' Hso [ss2 He | i slot slot' p _ _ _ Hp | ss2 He].
    + by eapply single_occupancy_evolves.
    + by apply single_occupancy_join.
    + eapply single_occupancy_vacant, evolves_vacant; [|exact He].
      apply resetSlots_vacant.
Qed.

Lemma same_layout_evolves cfg ss ss' :
  same_layout cfg ss → evolves ss ss' → same_layout cfg ss'.
Proof.
  unfold same_layout, evolves. intros H1 H2.
  eapply Forall2_trans; [|exact H1|exact H2].
  cbn. intros s0 s s' (?&?) (?&?&_). split; congruence.
Qed.

Lemma same_layout_reset cfg : same_layout cfg (resetSlots cfg).
Proof. apply Forall_Forall2_diag, Forall_forall. done. Qed.

Lemma same_layout_join cfg ss i slot slot' p :
  same_layout cfg ss → ss !! i = Some slot →
  id slot' = id slot → gameClass slot' = gameClass slot →
  same_layout cfg (<[i := slot']> (vacate_if p <$> ss)).
Proof.
  intros Hl Hi Hid Hgc. unfold same_layout in *.
  assert (Forall2 (λ s s', id s' = id s ∧ gameClass s' = gameClass s) ss
            (<[i := slot']> (vacate_if p <$> ss))) as Hstep;
    [|eapply Forall2_trans; [|exact Hl|exact Hstep];
      intros s0 s s' [? ?] [? ?]; split; congruence].
  apply Forall2_same_length_lookup_2.
  { by rewrite length_insert, length_fmap. }
  intros j s s' Hs Hs'. apply list_lookup_insert_Some in Hs'.
  rewrite list_lookup_fmap, Hs in Hs'. cbn in Hs'.
  destruct Hs' as [(-> & <- & _)|(_ & [= <-])].
  - rewrite Hi in Hs. by injection Hs as <-.
  - unfold vacate_if. by destruct (decide (playerId s = Some p)).
Qed.

Lemma reachable_same_layout cfg w :
  reachable cfg w → same_layout cfg (slots (queue w)).
Proof.
  apply reachable_slots_ind.
  - intros ss' He. eapply same_layout_evolves; [apply same_layout_reset|done].
  - intros ss ss' Hl [ss2 He | i slot slot' p Hi Hid Hgc _ | ss2 He].
    + by eapply same_layout_evolves.
    + by eapply same_layout_join.
    + eapply same_layout_evolves; [apply same_layout_reset|done].
Qed.

Lemma reachable_length cfg w :
  reachable cfg w → length (slots (queue w)) = length (resetSlots cfg).
Proof. intros Hw. symmetry. eapply Forall2_length, reachable_same_layout, Hw. Qed.

Lemma run_reachable cfg rnd trace w :
  unit_interval rnd = true →
  run cfg trace (new_QueueService cfg rnd) = Some w → reachable cfg w.
Proof.
  intros Hr. assert (reachable cfg (new_QueueService cfg rnd)) as H0 by by constructor.
  revert H0. generalize (new_QueueService cfg rnd).
  induction trace as [|a trace IH]; intros w0 H0 Hrun; cbn in Hrun.
  - by injection Hrun as <-.
  - destruct (exec cfg a w0) as [w1|] eqn:E; [|done]. cbn in Hrun.
    eapply IH; [|exact Hrun]. by econstructor.
Qed.

(** ** The model at work *)

(** [ready] is its two halves run back to back. *)
Lemma ready_split p player sender w :
  match ready_check p w with
  | inl e => ready p player sender w = (inl e, w)
  | inr r => ready_resume r player sender w = Some (ready p player sender w)
  end.
Proof.
  unfold ready_check, ready, ready_resume, deref, assign.
  destruct (decide (state (queue w) ≠ Ready)); [done|].
  destruct (list_find _ _) as [[i slot]|] eqn:Hfind; [|done].
  apply list_find_Some in Hfind as (Hi & _). cbn [arr idx].
  rewrite decide_True by done. rewrite Hi. cbn.
  destruct player; by rewrite decide_True.
Qed.

(** The worlds used below are the results of the runs they are named
    after. *)
Example one_joined_run :
  run configTest [ join_as 0 "p1" ] (new_QueueService configTest 0) = Some one_joined.
Proof. vm_compute. reflexivity. Qed.

Example queue_ready_run :
  run configTest [ join_as 0 "p1"; serve_task 0; join_as 1 "p2" ]
    (new_QueueService configTest 0) = Some all_but_last_seated
  ∧ exec configTest (serve_task 0) all_but_last_seated = Some queue_ready
  ∧ run configTest queue_filled (new_QueueService configTest 0) = Some queue_ready.
Proof. split_and!; vm_compute; reflexivity. Qed.

Example one_confirmed_run :
  run configTest p1_confirmed (new_QueueService configTest 0) = Some one_confirmed.
Proof. vm_compute. reflexivity. Qed.

Example both_confirmed_run :
  run configTest p1_p2_confirmed (new_QueueService configTest 0) = Some both_confirmed.
Proof. vm_compute. reflexivity. Qed.

(** Scenario A: one player seated, the queue waits; both seated, it is
    ready, nobody has confirmed and the ready-up timer is pending. *)
Example scenario_A :
  state (queue one_joined) = Waiting
  ∧ playerId <$> slots (queue one_joined) = [ Some "p1"; None ]
  ∧ state (queue queue_ready) = Ready
  ∧ slots (queue queue_ready) = [ mkQueueSlot 0 "soldier" (Some "p1") false;
                                  mkQueueSlot 1 "soldier" (Some "p2") false ]
  ∧ timer (queue queue_ready) = Some 0%nat
  ∧ tasks queue_ready = [ TReadyUpTimeout 0 ].
Proof. split_and!; reflexivity. Qed.

(** Scenario D: there is no slot 99. *)
Example scenario_D :
  join 99 "p1" (Some "p1") false None (new_QueueService configTest 0)
  = (inl NoSuchSlot, new_QueueService configTest 0).
Proof. vm_compute. reflexivity. Qed.

(** ** Failed calls *)

Lemma join_error slotId p player active sender w e w' :
  join slotId p player active sender w = (inl e, w') → w' = w.
Proof. unfold join. repeat case_match; congruence. Qed.

Lemma leave_error p sender w e w' :
  leave p sender w = (inl e, w') → w' = w.
Proof. unfold leave. repeat case_match; congruence. Qed.

Lemma ready_error p player sender w e w' :
  ready p player sender w = (inl e, w') → e ≠ NullPlayer → w' = w.
Proof. unfold ready. repeat case_match; congruence. Qed.

(** C2. A call of [join], [leave] or [ready] that ends with one of the
    errors NoSuchSlot, SlotTaken, CannotUnready, QueueNotReady or
    PlayerNotQueued leaves the world exactly as it was: slots, occupants,
    flags, life cycle and map, and also nothing sent and nothing scheduled. *)
Theorem failed_call_leaves_state req sender w e w' :
  serve req sender w = (inl e, w') → typed_error e = true → w' = w.
Proof.
  destruct req as [slotId p player active | p | p player]; cbn [serve].
  - destruct (join slotId p player active sender w) as [[e0|s] w0] eqn:E; [|done].
    cbn. intros [= <- <-] _. by eapply join_error.
  - intros H _. by eapply leave_error.
  - destruct (ready p player sender w) as [[e0|s] w0] eqn:E; [|done].
    cbn. intros [= <- <-] He. eapply ready_error; [done|]. by intros ->.
Qed.

(** Scenario E: "p1" sits in slot 0, "p2" asks for slot 0. *)
Lemma failed_call_leaves_state_witness :
  snd (serve (JoinQueue 0 "p2" (Some "p2") false) None one_joined) = one_joined.
Proof.
  apply (failed_call_leaves_state (JoinQueue 0 "p2" (Some "p2") false) None
           one_joined SlotTaken); reflexivity.
Defined.

(** In contrast, [ready] for a queued player whose document is gone stops
    on [player.name] after the flag was set. *)
Example ready_null_player :
  ready "p1" None None queue_ready =
  (inl NullPlayer,
   set_slots [ mkQueueSlot 0 "soldier" (Some "p1") true;
               mkQueueSlot 1 "soldier" (Some "p2") false ] queue_ready).
Proof. reflexivity. Qed.



(** ** One slot per player *)

Lemma join_moves_player slotId p player active sender w a sa b sb slot w' :
  slots (queue w) !! a = Some sa → playerId sa = Some p →
  list_find (λ s, id s = slotId) (slots (queue w)) = Some (b, sb) → b ≠ a →
  join slotId p player active sender w = (inr slot, w') →
  slots (queue w') !! a = Some (set_playerReady false (set_playerId None sa))
  ∧ slots (queue w') !! b = Some slot
  ∧ playerId slot = Some p
  ∧ ∃ es, emitted w' = emitted w ++ es
        ∧ QueueSlotUpdate None (set_playerReady false (set_playerId None sa)) ∈ es.
Proof.
  intros Ha Hpa Hfind Hne. unfold join. rewrite Hfind.
  destruct player as [pname|]; [|done]. destruct active; [done|].
  destruct (truthy (playerId sb)); [done|].
  apply list_find_Some in Hfind as (Hb & _).
  assert (vacate_if p sa = set_playerReady false (set_playerId None sa)) as Hvac.
  { unfold vacate_if. by rewrite decide_True. }
  intros [= <- <-]. cbn. split_and!.
  - rewrite list_lookup_insert_ne by done.
    by rewrite list_lookup_fmap, Ha, <- Hvac.
  - apply list_lookup_insert_eq. rewrite length_fmap. by eapply lookup_lt_Some.
  - by destruct (decide _).
  - eexists. split; [by rewrite <- app_assoc|].
    apply elem_of_app. left. rewrite <- Hvac.
    apply list_elem_of_fmap_2, list_elem_of_fmap_2, list_elem_of_filter.
    split; [done|]. by eapply list_elem_of_lookup_2.
Qed.

(** C4. In every reachable world no player id is the occupant of two
    slots. And when [p], sitting in the slot at position [a], joins the
    free slot with id [slotId], found at another position [b], the same
    call vacates [a] (occupant removed, flag cleared), announces the vacated
    slot with a slot update to everyone, and seats [p] at [b]. *)
Theorem one_slot_per_player cfg w :
  reachable cfg w →
  single_occupancy (slots (queue w))
  ∧ ∀ slotId p player active sender a sa b sb slot w',
      slots (queue w) !! a = Some sa → playerId sa = Some p →
      list_find (λ s, id s = slotId) (slots (queue w)) = Some (b, sb) → b ≠ a →
      join slotId p player active sender w = (inr slot, w') →
      slots (queue w') !! a = Some (set_playerReady false (set_playerId None sa))
      ∧ slots (queue w') !! b = Some slot
      ∧ playerId slot = Some p
      ∧ ∃ es, emitted w' = emitted w ++ es
            ∧ QueueSlotUpdate None (set_playerReady false (set_playerId None sa)) ∈ es.
Proof.
  intros Hw. split; [by eapply reachable_single_occupancy|].
  intros. by eapply join_moves_player.
Qed.

(** "p1", in slot 0 of [configTest], moves to slot 1. *)
Lemma one_slot_per_player_witness :
  single_occupancy (slots (queue one_joined))
  ∧ slots (queue (snd (join 1 "p1" (Some "p1") false None one_joined))) !! 0%nat
    = Some (mkQueueSlot 0 "soldier" None false).
Proof.
  assert (reachable configTest one_joined) as Hr.
  { apply (run_reachable configTest 0 [ join_as 0 "p1" ]); vm_compute; reflexivity. }
  destruct (one_slot_per_player configTest one_joined Hr) as [H1 H2]. split; [exact H1|].
  specialize (H2 1 "p1" (Some "p1") false None 0%nat (mkQueueSlot 0 "soldier" (Some "p1") false)
                1%nat (mkQueueSlot 1 "soldier" None false)
                (mkQueueSlot 1 "soldier" (Some "p1") false)
                (snd (join 1 "p1" (Some "p1") false None one_joined))).
  apply H2; [reflexivity | reflexivity | reflexivity | lia | reflexivity].
Defined.

(** ** Leaving *)

Lemma leave_absent p sender w :
  (∀ s, s ∈ slots (queue w) → playerId s ≠ Some p) →
  leave p sender w = (inr None, w).
Proof.
  intros Habs. unfold leave.
  destruct (list_find _ _) as [[i slot]|] eqn:Hfind; [|done].
  apply list_find_Some in Hfind as (Hi & Hp & _).
  exfalso. eapply Habs; [|exact Hp]. by eapply list_elem_of_lookup_2.
Qed.

Lemma leave_twice p sender sender' w r w' :
  single_occupancy (slots (queue w)) →
  leave p sender w = (inr r, w') → leave p sender' w' = (inr None, w').
Proof.
  intros Hso. unfold leave at 1.
  destruct (list_find _ _) as [[i slot]|] eqn:Hfind.
  - destruct (_ && _); [done|]. intros [= <- <-].
    apply list_find_Some in Hfind as (Hi & Hp & _).
    apply leave_absent. cbn. intros s Hs Hps.
    apply list_elem_of_lookup_1 in Hs as [j Hj].
    apply list_lookup_insert_Some in Hj as [(-> & <- & _)|(Hne & Hj)]; [done|].
    apply Hne. by eapply (Hso i j slot s p).
  - intros [= <- <-]. unfold leave. by rewrite Hfind.
Qed.

Lemma leave_refused_again p sender sender' w e w' :
  leave p sender w = (inl e, w') → leave p sender' w' = (inl e, w').
Proof.
  unfold leave. destruct (list_find _ _) as [[i slot]|] eqn:Hfind; [|done].
  destruct (_ && _) eqn:Hc; [|done]. intros [= <- <-]. by rewrite Hfind, Hc.
Qed.

(** C9. [leave] for a player who holds no slot returns [null] and changes
    nothing. Hence, from a reachable world, [leave] can be called twice in
    a row for the same player: the second call changes nothing, and it
    returns [null] whenever the first call returned (a slot or [null]). *)
Theorem leave_absent_player cfg w p sender :
  ((∀ s, s ∈ slots (queue w) → playerId s ≠ Some p) →
     leave p sender w = (inr None, w))
  ∧ (reachable cfg w → ∀ o w' sender',
       leave p sender w = (o, w') →
       snd (leave p sender' w') = w'
       ∧ ∀ r, o = inr r → leave p sender' w' = (inr None, w')).
Proof.
  split; [apply leave_absent|].
  intros Hw o w' sender' Hl.
  pose proof (reachable_single_occupancy cfg w Hw) as Hso.
  destruct o as [e|r].
  - split; [|done]. by rewrite (leave_refused_again _ _ sender' _ _ _ Hl).
  - pose proof (leave_twice _ _ sender' _ _ _ Hso Hl) as H2.
    split; [by rewrite H2|]. by intros _ _.
Qed.

(** "p2" is not queued; "p1" leaves twice. *)
Lemma leave_absent_player_witness :
  leave "p2" None one_joined = (inr None, one_joined)
  ∧ leave "p1" None (snd (leave "p1" None one_joined))
    = (inr None, snd (leave "p1" None one_joined)).
Proof.
  split.
  - apply (leave_absent_player configTest one_joined "p2" None).
    intros s Hs. apply list_elem_of_In in Hs. cbn in Hs.
    destruct Hs as [<-|[<-|[]]]; discriminate.
  - refine (proj2 (proj2 (leave_absent_player configTest one_joined "p1" None) _
                      (inr (Some (mkQueueSlot 0 "soldier" None false)))
                      (snd (leave "p1" None one_joined)) None _) _ eq_refl).
    + apply (run_reachable configTest 0 [ join_as 0 "p1" ]); vm_compute; reflexivity.
    + reflexivity.
Defined.

(** ** Counting *)

Lemma count_fold (f : QueueSlot → bool) ss z :
  fold_left (λ prev curr, if f curr then prev + 1 else prev) ss z =
  z + Z.of_nat (length (filter (λ s, f s = true) ss)).
Proof.
  revert z. induction ss as [|s ss IH]; intros z; cbn [fold_left]; [cbn; lia|].
  rewrite IH, filter_cons. destruct (f s) eqn:E.
  - rewrite decide_True by done. cbn [length]. lia.
  - rewrite decide_False by done. lia.
Qed.

Lemma filter_all_length {A} (P : A → Prop) `{∀ x, Decision (P x)} (l : list A) :
  length (filter P l) = length l → Forall P l.
Proof.
  induction l as [|x l IH]; [constructor|].
  rewrite filter_cons. pose proof (length_filter P l) as Hle.
  destruct (decide (P x)); cbn [length]; intros Hl.
  - constructor; [done|]. apply IH. lia.
  - lia.
Qed.

Lemma filter_length_all {A} (P : A → Prop) `{∀ x, Decision (P x)} (l : list A) :
  Forall P l → length (filter P l) = length l.
Proof.
  induction 1 as [|x l Hx _ IH]; [done|].
  rewrite filter_cons, decide_True by done. cbn. by rewrite IH.
Qed.

Lemma playerCount_full ss :
  playerCount ss = Z.of_nat (length ss) ↔ Forall (λ s, truthy (playerId s) = true) ss.
Proof.
  unfold playerCount. rewrite (count_fold (λ s, truthy (playerId s))). split.
  - intros H. apply (filter_all_length (λ s, truthy (playerId s) = true)). lia.
  - intros H. by rewrite (filter_length_all (λ s, truthy (playerId s) = true)).
Qed.

Lemma readyPlayerCount_full ss :
  readyPlayerCount ss = Z.of_nat (length ss) ↔ Forall (λ s, playerReady s = true) ss.
Proof.
  unfold readyPlayerCount. rewrite (count_fold playerReady). split.
  - intros H. apply (filter_all_length (λ s, playerReady s = true)). lia.
  - intros H. by rewrite (filter_length_all (λ s, playerReady s = true)).
Qed.

Lemma reachable_required cfg w :
  valid_config cfg → reachable cfg w →
  Z.of_nat (length (slots (queue w))) = requiredPlayerCount cfg.
Proof.
  intros Hv Hw. rewrite (reachable_length cfg w Hw), requiredPlayerCount_sum.
  rewrite resetSlots_layout_spec. unfold layout_spec. rewrite length_imap.
  by apply length_layout_roles, valid_config_nonneg.
Qed.

(** ** The ready-up timer *)

Lemma cleanup_slot_spec s :
  id (cleanup_slot s) = id s ∧ gameClass (cleanup_slot s) = gameClass s
  ∧ playerReady (cleanup_slot s) = false
  ∧ playerId (cleanup_slot s) = if playerReady s then playerId s else None.
Proof. unfold cleanup_slot. destruct (playerReady s) eqn:E; cbn; by rewrite ?E. Qed.

(** C6. In a reachable world of a valid configuration, when a ready-up
    timer is served while the queue is [ready] and some slot is not
    confirmed, the queue goes back to [waiting]; every slot that was not
    confirmed loses its occupant, every confirmed slot keeps its occupant,
    and no slot is confirmed any more. *)
Theorem readyUpTimeout_evicts cfg w k h rnd player :
  valid_config cfg → reachable cfg w →
  tasks w !! k = Some (TReadyUpTimeout h) →
  state (queue w) = Ready →
  ¬ Forall (λ s, playerReady s = true) (slots (queue w)) →
  ∃ w', exec cfg (ActFire k rnd player) w = Some w'
      ∧ state (queue w') = Waiting
      ∧ Forall2 (λ s s', id s' = id s ∧ gameClass s' = gameClass s
                         ∧ playerReady s' = false
                         ∧ playerId s' = if playerReady s then playerId s else None)
          (slots (queue w)) (slots (queue w')).
Proof.
  intros Hv Hw Hk Hst Hnot. eexists. split.
  { cbn [exec]. rewrite Hk. cbn. reflexivity. }
  unfold readyUpTimeout. cbn [remove_task queue].
  destruct (readyPlayerCount (slots (queue w)) =? requiredPlayerCount cfg) eqn:E.
  - exfalso. apply Hnot, readyPlayerCount_full. apply Z.eqb_eq in E.
    rewrite E. symmetry. by apply reachable_required.
  - unfold setState. cbn [remove_task queue]. rewrite Hst.
    rewrite decide_True by done. cbn. split; [done|].
    apply Forall2_fmap_r, Forall_Forall2_diag, Forall_forall.
    intros s _. apply cleanup_slot_spec.
Qed.

(** The queue is full, "p1" has confirmed, "p2" has not; timer 0 fires. *)
Lemma readyUpTimeout_evicts_witness :
  ∃ w', exec configTest (serve_task 0) one_confirmed = Some w'
      ∧ state (queue w') = Waiting
      ∧ Forall2 (λ s s', id s' = id s ∧ gameClass s' = gameClass s
                         ∧ playerReady s' = false
                         ∧ playerId s' = if playerReady s then playerId s else None)
          (slots (queue one_confirmed)) (slots (queue w')).
Proof.
  apply (readyUpTimeout_evicts configTest one_confirmed 0 0 0 None).
  - split_and!; [discriminate | repeat constructor; cbn; lia | cbn; lia].
  - apply (run_reachable configTest 0 p1_confirmed); vm_compute; reflexivity.
  - reflexivity.
  - reflexivity.
  - intros H. apply Forall_cons_1 in H as [_ H]. apply Forall_cons_1 in H as [H _].
    discriminate H.
Defined.

(** ** Entering [ready] and [launching] *)

Section Lifecycle.
Variable cfg : QueueConfig.

Lemma entered_full_same w w' :
  state (queue w') = state (queue w) → entered_full cfg w w'.
Proof. intros E. split; congruence. Qed.

Lemma updateState_entered w : entered_full cfg w (updateState cfg w).
Proof.
  unfold updateState.
  destruct (state (queue w)) eqn:Hst.
  - destruct (_ =? _) eqn:E; [|by apply entered_full_same].
    apply Z.eqb_eq in E. unfold setState. rewrite Hst, decide_True by done.
    split; cbn; [by rewrite Hst|done].
  - destruct (_ =? 0) eqn:E0.
    { unfold setState. rewrite Hst, decide_True by done. split; cbn; done. }
    destruct (_ =? requiredPlayerCount cfg) eqn:E; [|by apply entered_full_same].
    apply Z.eqb_eq in E. unfold setState. rewrite Hst, decide_True by done.
    split; cbn; [done|by rewrite Hst].
  - unfold setState. rewrite Hst, decide_True by done. split; cbn; done.
Qed.

Lemma readyUpTimeout_entered w : entered_full cfg w (readyUpTimeout cfg w).
Proof.
  unfold readyUpTimeout. destruct (_ =? _) eqn:E.
  - apply Z.eqb_eq in E. unfold setState. case_decide; [|by apply entered_full_same].
    split; cbn; [done|]. intros _ _. by destruct (state (queue w)).
  - unfold setState. case_decide; [|by apply entered_full_same].
    split; cbn; done.
Qed.

Lemma reset_entered rnd w : entered_full cfg w (reset cfg rnd w).
Proof.
  unfold reset. cbv zeta.
  match goal with |- entered_full _ _ (updateState _ ?w1) =>
    pose proof (updateState_entered w1) as [H1 H2] end.
  split; [apply H1|apply H2].
Qed.

Lemma exec_entered a w w' : exec cfg a w = Some w' → entered_full cfg w w'.
Proof.
  destruct a as [slotId p player active sender | p sender | p sender | rnd
                | k rnd player | k];
    [| | | | |intros H; apply exec_reject in H as [-> _]; by apply entered_full_same];
    cbn [exec]; intros H.
  - inversion H; subst. apply entered_full_same.
    unfold join. repeat case_match; done.
  - inversion H; subst. apply entered_full_same.
    unfold leave. repeat case_match; done.
  - apply entered_full_same. destruct (ready_check p w); by inversion H.
  - destruct (unit_interval rnd); inversion H; subst. apply reset_entered.
  - destruct (tasks w !! k) as [t|]; [|done]. cbn in H.
    destruct t; cbn [fire] in H.
    + inversion H; subst. apply (updateState_entered (remove_task k w)).
    + inversion H; subst. apply (readyUpTimeout_entered (remove_task k w)).
    + inversion H; subst. by apply entered_full_same.
    + destruct (unit_interval rnd); inversion H; subst.
      apply (reset_entered rnd (remove_task k w)).
    + apply entered_full_same. unfold ready_resume, assign in H.
      destruct (deref slot (remove_task k w)); [|done]. cbn in H.
      destruct player, (decide _); inversion H; done.
Qed.
End Lifecycle.


(** *** Orderly runs *)

Lemma remove_scheduled t w : remove_task (length (tasks w)) (schedule t w) = w.
Proof.
  destruct w as [q d ts n e g]. unfold remove_task, schedule. cbn. f_equal.
  by rewrite delete_middle, app_nil_r.
Qed.

(** A move of an orderly run is one or two steps of the service. *)
Lemma move_reachable cfg m w w' :
  reachable cfg w → move cfg m w = Some w' → reachable cfg w'.
Proof.
  intros Hw. destruct m as [a|p player sender]; cbn [move].
  - destruct (in_order a w); [|done]. intros H. by econstructor.
  - intros [= <-]. pose proof (ready_split p player sender w) as Hs.
    destruct (ready_check p w) as [e|r] eqn:Hc.
    + by rewrite Hs.
    + apply (reachable_step cfg (ActFire (length (tasks w)) 0 player)
               (schedule (TReadyAwait r sender) w)).
      * apply (reachable_step cfg (ActReady p sender) w); [done|]. cbn. by rewrite Hc.
      * cbn [exec]. change (tasks (schedule (TReadyAwait r sender) w))
          with (tasks w ++ [TReadyAwait r sender]).
        rewrite lookup_app_r, Nat.sub_diag by done. cbn.
        by rewrite remove_scheduled, Hs.
Qed.

Lemma orderly_reachable cfg w : orderly cfg w → reachable cfg w.
Proof.
  induction 1 as [rnd Hrnd|m w w' _ IH Hm]; [by constructor|].
  by eapply move_reachable.
Qed.

Lemma moves_orderly cfg rnd trace w :
  unit_interval rnd = true →
  moves cfg trace (new_QueueService cfg rnd) = Some w → orderly cfg w.
Proof.
  intros Hrnd. generalize (orderly_new cfg rnd Hrnd).
  generalize (new_QueueService cfg rnd). induction trace as [|m trace IH]; intros w0 Hw0.
  - by intros [= <-].
  - cbn [moves]. destruct (move cfg m w0) as [w1|] eqn:Hm; [|done]. cbn.
    apply IH. by econstructor.
Qed.

Lemma occupied_id p : p ≠ "" → truthy (Some p) = true.
Proof. intros Hp. cbn. apply negb_true_iff. by apply String.eqb_neq. Qed.

Lemma good_order_queue w w' :
  queue w' = queue w → in_good_order w → in_good_order w'.
Proof. unfold in_good_order. by intros ->. Qed.

Lemma all_confirmed_occupied ss :
  Forall (λ s, playerReady s = true) ss →
  Forall (λ s, playerReady s = true → occupied s) ss →
  Forall (λ s, playerReady s = true ∧ occupied s) ss.
Proof.
  rewrite !Forall_forall. intros H1 H2 s Hs. split; [by apply H1|].
  apply H2; [done|]. by apply H1.
Qed.

Section GoodOrder.
Variable cfg : QueueConfig.

Lemma updateState_good_order w :
  Z.of_nat (length (slots (queue w))) = requiredPlayerCount cfg →
  in_good_order w → in_good_order (updateState cfg w).
Proof.
  intros Hlen Hgood. pose proof Hgood as (Hid & Hr & Hl). unfold updateState.
  destruct (state (queue w)) eqn:Hst.
  - destruct (_ =? _) eqn:E; [|done].
    apply Z.eqb_eq in E. rewrite <- Hlen in E. apply playerCount_full in E.
    unfold setState. rewrite Hst, decide_True by done.
    split_and!; cbn; [done| |done]. intros _.
    eapply Forall_impl; [exact E|]. by intros s Hs _.
  - destruct (_ =? 0) eqn:E0.
    { unfold setState. rewrite Hst, decide_True by done.
      split_and!; cbn; [|done|done].
      apply Forall_fmap. eapply Forall_impl; [exact Hid|]. cbn.
      intros s Hs. unfold cleanup_slot. by destruct (playerReady s). }
    destruct (_ =? requiredPlayerCount cfg) eqn:E; [|done].
    apply Z.eqb_eq in E. rewrite <- Hlen in E. apply readyPlayerCount_full in E.
    unfold setState. rewrite Hst, decide_True by done.
    split_and!; cbn; [done|done|]. intros _.
    by apply all_confirmed_occupied; [|apply Hr].
  - unfold setState. rewrite Hst, decide_True by done.
    split_and!; cbn; done.
Qed.

Lemma readyUpTimeout_good_order w :
  Z.of_nat (length (slots (queue w))) = requiredPlayerCount cfg →
  state (queue w) = Ready →
  in_good_order w → in_good_order (readyUpTimeout cfg w).
Proof.
  intros Hlen Hst Hgood. pose proof Hgood as (Hid & Hr & Hl). unfold readyUpTimeout.
  destruct (_ =? _) eqn:E.
  - apply Z.eqb_eq in E. rewrite <- Hlen in E. apply readyPlayerCount_full in E.
    unfold setState. rewrite Hst, decide_True by done.
    split_and!; cbn; [done|done|]. intros _.
    by apply all_confirmed_occupied; [|apply Hr].
  - unfold setState. rewrite Hst, decide_True by done.
    split_and!; cbn; [|done|done].
    apply Forall_fmap. eapply Forall_impl; [exact Hid|]. cbn.
    intros s Hs. unfold cleanup_slot. by destruct (playerReady s).
Qed.

Lemma reset_good_order rnd w :
  Z.of_nat (length (resetSlots cfg)) = requiredPlayerCount cfg →
  in_good_order (reset cfg rnd w).
Proof.
  intros Hlen. unfold reset. cbv zeta.
  pose proof (resetSlots_fresh cfg) as Hfresh.
  match goal with |- in_good_order (updateState _ ?w4) =>
    assert (slots (queue w4) = resetSlots cfg) as Hs by done;
    assert (state (queue w4) = state (queue w)) as Hst by done;
    generalize dependent w4 end.
  intros w4 Hs Hst.
  assert (Forall (λ s, playerId s ≠ Some "") (resetSlots cfg)) as Hid.
  { eapply Forall_impl; [exact Hfresh|]. cbn. intros s [-> _]. done. }
  destruct (state (queue w4)) eqn:E.
  - apply updateState_good_order; [by rewrite Hs|].
    split_and!; rewrite ?Hs, ?E; done.
  - apply updateState_good_order; [by rewrite Hs|].
    split_and!; rewrite ?Hs; [done| |by rewrite E].
    intros _. eapply Forall_impl; [exact Hfresh|]. cbn. intros s [_ ->]. done.
  - unfold updateState. rewrite E. unfold setState. rewrite E, decide_True by done.
    split_and!; cbn; [by rewrite Hs|done|done].
Qed.

Lemma join_good_order slotId p player active sender w :
  p ≠ "" → in_good_order w →
  in_good_order (snd (join slotId p player active sender w)).
Proof.
  intros Hp Hgood. pose proof Hgood as (Hid & Hr & Hl). unfold join.
  destruct player as [name|]; [|done]. destruct active; [done|].
  destruct (list_find _ _) as [[i slot]|] eqn:Hfind; [|done].
  destruct (truthy (playerId slot)) eqn:Ht; [done|].
  apply list_find_Some in Hfind as (Hi & _). cbn.
  assert (∀ P : QueueSlot → Prop,
            (∀ s, P s → P (vacate_if p s)) →
            Forall P (slots (queue w)) → Forall P (vacate_if p <$> slots (queue w))) as Hv.
  { intros P HP HF. apply Forall_fmap. eapply Forall_impl; [exact HF|]. exact HP. }
  split_and!.
  - apply Forall_insert.
    + apply Hv; [|done]. intros s Hs. unfold vacate_if.
      by destruct (decide (playerId s = Some p)).
    + destruct (decide _); cbn; congruence.
  - intros Hst. apply Forall_insert.
    + apply Hv; [|by apply Hr]. intros s Hs. unfold vacate_if.
      destruct (decide (playerId s = Some p)); [intros Hc; cbn in Hc; done|done].
    + intros _. unfold occupied. destruct (decide _); cbn [playerId set_playerReady set_playerId];
        by apply occupied_id.
  - intros Hst. exfalso. specialize (Hl Hst).
    eapply Forall_lookup_1 in Hl as [_ Hocc]; [|exact Hi].
    unfold occupied in Hocc. congruence.
Qed.

Lemma leave_good_order p sender w :
  in_good_order w → in_good_order (snd (leave p sender w)).
Proof.
  intros Hgood. pose proof Hgood as (Hid & Hr & Hl). unfold leave.
  destruct (list_find _ _) as [[i slot]|] eqn:Hfind; [|done].
  apply list_find_Some in Hfind as (Hi & _).
  destruct (_ && _) eqn:Hg; [done|]. cbn. split_and!.
  - by apply Forall_insert.
  - intros Hst. apply Forall_insert; [by apply Hr|]. cbn. intros Hready.
    rewrite Hready, (bool_decide_eq_true_2 _ Hst) in Hg. done.
  - intros Hst. exfalso. specialize (Hl Hst).
    eapply Forall_lookup_1 in Hl as [Hready _]; [|exact Hi].
    rewrite Hready, (bool_decide_eq_true_2 (_ = Launching) Hst), orb_true_r in Hg. done.
Qed.

Lemma ready_good_order p player sender w :
  in_good_order w → in_good_order (snd (ready p player sender w)).
Proof.
  intros Hgood. pose proof Hgood as (Hid & Hr & Hl). unfold ready.
  destruct (decide (state (queue w) ≠ Ready)) as [|Hst]; [done|].
  apply dec_stable in Hst.
  destruct (list_find _ _) as [[i slot]|] eqn:Hfind; [|done].
  apply list_find_Some in Hfind as (Hi & Hp & _).
  assert (in_good_order
            (set_slots (<[i := set_playerReady true slot]> (slots (queue w))) w)) as Hset.
  { split_and!; cbn.
    - apply Forall_insert; [done|]. cbn.
      by eapply (Forall_lookup_1 _ _ _ _ Hid).
    - intros _. apply Forall_insert; [by apply Hr|]. intros _.
      unfold occupied. cbn. rewrite Hp. apply occupied_id. intros ->.
      eapply Forall_lookup_1 in Hid; [|exact Hi]. done.
    - rewrite Hst. done. }
  destruct player; cbn; [|done]. revert Hset. by apply good_order_queue.
Qed.

Lemma move_good_order m w w' :
  valid_config cfg → reachable cfg w →
  in_good_order w → move cfg m w = Some w' → in_good_order w'.
Proof.
  intros Hv Hw Hgood.
  pose proof (reachable_required cfg w Hv Hw) as Hlen.
  assert (Z.of_nat (length (resetSlots cfg)) = requiredPlayerCount cfg) as Hlen0.
  { by rewrite <- (reachable_length cfg w Hw). }
  destruct m as [a|p player sender]; cbn [move];
    [|intros [= <-]; by apply ready_good_order].
  destruct (in_order a w) eqn:Hin; [|done].
  destruct a as [slotId p player active sender | p sender | p sender | rnd
                | k rnd player | k];
    [| | | | |intros H; apply exec_reject in H as [-> _]; revert Hgood;
              by apply good_order_queue];
    cbn [exec]; cbn [in_order] in Hin.
  - intros [= <-]. apply join_good_order; [|done].
    apply negb_true_iff in Hin. by apply String.eqb_neq.
  - intros [= <-]. by apply leave_good_order.
  - done.
  - destruct (unit_interval rnd); [|done]. intros [= <-]. by apply reset_good_order.
  - destruct (tasks w !! k) as [t|]; [|done]. cbn.
    assert (in_good_order (remove_task k w)) as Hrem by by eapply good_order_queue.
    destruct t; cbn [fire].
    + intros [= <-]. by apply updateState_good_order.
    + intros [= <-]. apply bool_decide_eq_true in Hin. by apply readyUpTimeout_good_order.
    + intros [= <-]. revert Hrem. by apply good_order_queue.
    + destruct (unit_interval rnd); [|done]. intros [= <-]. by apply reset_good_order.
    + done.
Qed.

Lemma orderly_good_order w : valid_config cfg → orderly cfg w → in_good_order w.
Proof.
  intros Hv. induction 1 as [rnd Hrnd|m w w' Hw IH Hm].
  - apply reset_good_order.
    pose proof (reachable_new cfg rnd Hrnd) as Hnew.
    rewrite <- (reachable_length cfg _ Hnew). by apply reachable_required.
  - eapply move_good_order; [done| |exact IH|exact Hm]. by apply orderly_reachable.
Qed.
End GoodOrder.



(** Outside the orderly runs a [launching] queue can have a free slot.
    A [leave] served between the lookup of [ready] and its resumption
    leaves a slot that is confirmed and has no occupant; it counts for
    [readyPlayerCount], and the roster handed to [gameService.create] has
    a free slot. *)
Lemma launching_with_free_slot :
  run configTest p2_overtaken (new_QueueService configTest 0) = Some overtaken_launch
  ∧ reachable configTest overtaken_launch
  ∧ state (queue overtaken_launch) = Launching
  ∧ slots (queue overtaken_launch)
    = [ mkQueueSlot 0 "soldier" (Some "p1") true; mkQueueSlot 1 "soldier" None true ]
  ∧ games overtaken_launch = [ (slots (queue overtaken_launch), Some "cp_badlands") ].
Proof.
  assert (run configTest p2_overtaken (new_QueueService configTest 0)
          = Some overtaken_launch) as Hrun by (vm_compute; reflexivity).
  split_and!; [exact Hrun | exact (run_reachable _ 0 _ _ eq_refl Hrun) | reflexivity..].
Qed.

(** So does the ready-up timeout when it fires in a [waiting] queue: the
    [updateState] of the second [ready] takes the launched queue back to
    [waiting] with both slots confirmed, "p1" may leave, and timer 0 then
    finds as many confirmed slots as players required. No game is handed
    over for this second [launching]. *)
Lemma timeout_launches_with_free_slot :
  run configTest timeout_after_launch (new_QueueService configTest 0) = Some relaunched
  ∧ reachable configTest relaunched
  ∧ state (queue relaunched) = Launching
  ∧ slots (queue relaunched)
    = [ mkQueueSlot 0 "soldier" None true; mkQueueSlot 1 "soldier" (Some "p2") true ]
  ∧ length (games relaunched) = 1%nat.
Proof.
  assert (run configTest timeout_after_launch (new_QueueService configTest 0)
          = Some relaunched) as Hrun by (vm_compute; reflexivity).
  split_and!; [exact Hrun | exact (run_reachable _ 0 _ _ eq_refl Hrun) | reflexivity..].
Qed.

(** ** Launching *)

(** C3, as stated, fails: after the run [p1_confirmed_p2_left] the queue is
    [ready], its only occupant has confirmed, and the [updateState]
    scheduled by the last operation leaves it [ready] and hands no game
    over. [updateState] compares the number of confirmed slots with the
    required number of players. *)
Lemma confirmed_occupants_no_launch :
  run configTest p1_confirmed_p2_left (new_QueueService configTest 0) = Some confirmed_alone
  ∧ state (queue confirmed_alone) = Ready
  ∧ Forall (λ s, truthy (playerId s) = true → playerReady s = true)
      (slots (queue confirmed_alone))
  ∧ tasks confirmed_alone !! 1%nat = Some TUpdateState
  ∧ ∃ w', exec configTest (serve_task 1) confirmed_alone = Some w'
        ∧ state (queue w') = Ready
        ∧ games w' = [].
Proof.
  split_and!; [vm_compute; reflexivity | reflexivity | | reflexivity |].
  - repeat constructor; cbn; congruence.
  - eexists. split_and!; vm_compute; reflexivity.
Qed.

(** C3, amended. When the queue is [ready] and the [updateState] scheduled
    by an operation runs with some slot occupied and as many confirmed
    slots as players required, the life cycle becomes [launching] and
    [gameService.create] is called with the slots and the selected map. *)
Theorem updateState_launches cfg w k rnd player :
  tasks w !! k = Some TUpdateState →
  state (queue w) = Ready →
  playerCount (slots (queue w)) ≠ 0 →
  readyPlayerCount (slots (queue w)) = requiredPlayerCount cfg →
  ∃ w', exec cfg (ActFire k rnd player) w = Some w'
      ∧ state (queue w') = Launching
      ∧ slots (queue w') = slots (queue w)
      ∧ games w' = games w ++ [(slots (queue w), map (queue w))].
Proof.
  intros Hk Hst Hpc Hrc. eexists. split.
  { cbn [exec]. rewrite Hk. cbn. reflexivity. }
  unfold updateState. cbn [remove_task queue]. rewrite Hst.
  apply Z.eqb_neq in Hpc. apply Z.eqb_eq in Hrc. rewrite Hpc, Hrc.
  unfold setState. cbn [remove_task queue]. rewrite Hst, decide_True by done.
  cbn. done.
Qed.

(** Both players of [configTest] have confirmed. *)
Lemma updateState_launches_witness :
  ∃ w', exec configTest (serve_task 1) both_confirmed = Some w'
      ∧ state (queue w') = Launching
      ∧ slots (queue w') = slots (queue both_confirmed)
      ∧ games w' = games both_confirmed
                   ++ [(slots (queue both_confirmed), map (queue both_confirmed))].
Proof.
  apply (updateState_launches configTest both_confirmed 1 0 None);
    [reflexivity | reflexivity | discriminate | reflexivity].
Defined.

(** ** Map selection *)

Lemma random_index rnd n :
  unit_interval rnd = true → (0 < n)%nat →
  0 ≤ Qfloor (Qmult rnd (inject_Z (Z.of_nat n))) < Z.of_nat n.
Proof.
  unfold unit_interval. intros Hr Hn.
  apply andb_true_iff in Hr as [H0 H1].
  apply Qle_bool_iff in H0. apply negb_true_iff in H1.
  assert (rnd < 1)%Q as Hlt.
  { apply Qnot_le_lt. intros Hle. apply Qle_bool_iff in Hle. congruence. }
  assert (0 < inject_Z (Z.of_nat n))%Q as Hpos.
  { change 0%Q with (inject_Z 0). rewrite <- Zlt_Qlt. lia. }
  split.
  - change 0 with (Qfloor (inject_Z 0)). apply Qfloor_resp_le.
    change (inject_Z 0) with 0%Q. apply Qmult_le_0_compat; [done|]. by apply Qlt_le_weak.
  - rewrite Zlt_Qlt. eapply Qle_lt_trans; [apply Qfloor_le|].
    rewrite <- (Qmult_1_l (inject_Z (Z.of_nat n))) at 2.
    by apply Qmult_lt_compat_r.
Qed.

Lemma randomizeMap_pool cfg rnd w :
  unit_interval rnd = true →
  filter (λ m, Some m ≠ map (queue w)) (maps cfg) ≠ [] →
  ∃ m, map (queue (randomizeMap cfg rnd w)) = Some m
     ∧ m ∈ maps cfg ∧ Some m ≠ map (queue w).
Proof.
  intros Hr Hpool. unfold randomizeMap, set_map, upd_queue. cbv zeta. cbn [queue map].
  set (mapPool := filter _ _) in *.
  assert (0 < length mapPool)%nat as Hlen by (destruct mapPool; [done|cbn; lia]).
  pose proof (random_index rnd _ Hr Hlen) as [Hlo Hhi].
  unfold at_index. rewrite (proj2 (Z.ltb_ge _ _) Hlo).
  destruct (lookup_lt_is_Some_2 mapPool (Z.to_nat (Qfloor (Qmult rnd (inject_Z (Z.of_nat (length mapPool)))))))
    as [m Hm]; [lia|].
  exists m. split; [done|].
  apply list_elem_of_lookup_2 in Hm. by apply list_elem_of_filter in Hm as [? ?].
Qed.

Lemma randomizeMap_empty_pool cfg rnd w :
  filter (λ m, Some m ≠ map (queue w)) (maps cfg) = [] →
  map (queue (randomizeMap cfg rnd w)) = None.
Proof.
  intros Hpool. unfold randomizeMap, set_map, upd_queue. cbv zeta. cbn [queue map].
  rewrite Hpool. unfold at_index. by destruct (_ <? _).
Qed.

(** Whatever [Math.random()] returns, a service whose only configured map
    is the current one is left without map by [reset]. *)
Lemma reset_single_map cfg rnd w m :
  maps cfg = [m] → map (queue w) = Some m →
  map (queue (reset cfg rnd w)) = None
  ∧ QueueMapUpdated None ∈ emitted (reset cfg rnd w).
Proof.
  intros Hmaps Hm. unfold reset. cbv zeta.
  set (w2 := emit _ (replace_slots _ w)).
  assert (map (queue (randomizeMap cfg rnd w2)) = None) as Hnone.
  { apply randomizeMap_empty_pool. rewrite Hmaps. cbn [w2 emit replace_slots queue map].
    rewrite Hm. rewrite filter_cons, decide_False by (by intros H; apply H). done. }
  rewrite Hnone.
  set (w4 := emit [QueueMapUpdated None] _).
  assert (map (queue w4) = None ∧ QueueMapUpdated None ∈ emitted w4) as [H1 H2].
  { split; [exact Hnone|]. cbn. apply elem_of_app. right. by apply list_elem_of_singleton. }
  clearbody w4. clear -H1 H2. unfold updateState, setState.
  repeat case_match; try done;
    (split; [by destruct (state (queue w4)) | ]);
    cbn; rewrite ?elem_of_app; auto.
Qed.

(** C7. With a single configured map the pool left after excluding the
    current map is empty: the constructor selects "cp_badlands", the next
    [reset] leaves [map] undefined, and the game launched after it is
    created without a map. *)
Theorem single_map_pool_undefined :
  map (queue (new_QueueService oneMap 0)) = Some "cp_badlands"
  ∧ map (queue (reset oneMap 0 (new_QueueService oneMap 0))) = None
  ∧ run oneMap two_rounds (new_QueueService oneMap 0) = Some second_launch
  ∧ List.map snd (games second_launch) = [ Some "cp_badlands"; None ].
Proof. split_and!; vm_compute; reflexivity. Qed.

(** ** A timer that outlives its round *)

(** C5. [delete this.timer] forgets the handle and leaves the timeout
    pending. In the run [second_round] timer 0, started in the first round,
    is still pending when the queue is [ready] again with timer 1 as its
    timer; when timer 0 fires it evicts "p4", drops the confirmation of
    "p3" and puts the queue back to [waiting]. *)
Theorem stale_timer_evicts :
  run configTest second_round (new_QueueService configTest 0) = Some second_round_ready
  ∧ state (queue second_round_ready) = Ready
  ∧ timer (queue second_round_ready) = Some 1%nat
  ∧ tasks second_round_ready = [ TReadyUpTimeout 0; TReadyUpTimeout 1 ]
  ∧ slots (queue second_round_ready) =
      [ mkQueueSlot 0 "soldier" (Some "p3") true; mkQueueSlot 1 "soldier" (Some "p4") false ]
  ∧ ∃ w', exec configTest (serve_task 0) second_round_ready = Some w'
        ∧ state (queue w') = Waiting
        ∧ slots (queue w') =
            [ mkQueueSlot 0 "soldier" (Some "p3") false; mkQueueSlot 1 "soldier" None false ].
Proof.
  split_and!; [vm_compute; reflexivity | reflexivity..|].
  eexists. split_and!; vm_compute; reflexivity.
Qed.

(** * Further properties *)

(** ** The layout is kept *)

Lemma same_layout_fmap cfg ss :
  same_layout cfg ss →
  id <$> ss = id <$> resetSlots cfg ∧ gameClass <$> ss = gameClass <$> resetSlots cfg.
Proof.
  unfold same_layout. induction 1 as [|s0 s l0 l [Hid Hgc] _ [IH1 IH2]]; [done|].
  cbn. by rewrite Hid, Hgc, IH1, IH2.
Qed.

Lemma reachable_ids cfg w :
  valid_config cfg → reachable cfg w →
  id <$> slots (queue w) = Z.of_nat <$> seq 0 (Z.to_nat (requiredPlayerCount cfg)).
Proof.
  intros Hv Hw.
  destruct (same_layout_fmap cfg _ (reachable_same_layout cfg w Hw)) as [-> _].
  rewrite resetSlots_layout_spec, layout_spec_ids, <- resetSlots_layout_spec.
  rewrite <- (reachable_length cfg w Hw), <- (reachable_required cfg w Hv Hw).
  by rewrite Nat2Z.id.
Qed.

(** X1. In every reachable world the slots have the ids and the game
    classes of the configured layout, position by position: no operation
    renumbers, adds or drops a slot. For a valid configuration the ids are
    0, 1, ..., [requiredPlayerCount] - 1. *)
Theorem slots_keep_layout cfg w :
  reachable cfg w →
  id <$> slots (queue w) = id <$> resetSlots cfg
  ∧ gameClass <$> slots (queue w) = gameClass <$> resetSlots cfg
  ∧ (valid_config cfg →
     id <$> slots (queue w) = Z.of_nat <$> seq 0 (Z.to_nat (requiredPlayerCount cfg))).
Proof.
  intros Hw. destruct (same_layout_fmap cfg _ (reachable_same_layout cfg w Hw)) as [H1 H2].
  split_and!; [done|done|]. intros Hv. by apply reachable_ids.
Qed.

Lemma slots_keep_layout_witness :
  id <$> slots (queue one_confirmed) = id <$> resetSlots configTest
  ∧ gameClass <$> slots (queue one_confirmed) = gameClass <$> resetSlots configTest
  ∧ (valid_config configTest →
     id <$> slots (queue one_confirmed)
     = Z.of_nat <$> seq 0 (Z.to_nat (requiredPlayerCount configTest))).
Proof.
  apply (slots_keep_layout configTest one_confirmed).
  apply (run_reachable configTest 0 p1_confirmed); vm_compute; reflexivity.
Defined.

(** X2. On a reachable queue of a valid configuration, a [join] that got
    past the lookups answers 'no such slot' exactly when [slotId] is not
    one of 0, ..., [requiredPlayerCount] - 1. *)
Theorem join_no_such_slot cfg w slotId p name sender :
  valid_config cfg → reachable cfg w →
  fst (join slotId p (Some name) false sender w) = inl NoSuchSlot
  ↔ ¬ (0 ≤ slotId < requiredPlayerCount cfg).
Proof.
  intros Hv Hw. pose proof (reachable_ids cfg w Hv Hw) as Hids. unfold join.
  destruct (list_find _ _) as [[i slot]|] eqn:Hfind.
  - apply list_find_Some in Hfind as (Hi & Hid & _).
    assert ((id <$> slots (queue w)) !! i = Some slotId) as Hl
      by by rewrite list_lookup_fmap, Hi, <- Hid.
    rewrite Hids, list_lookup_fmap in Hl.
    destruct (seq _ _ !! i) as [n|] eqn:Hseq; [|done]. cbn in Hl.
    apply lookup_seq in Hseq as [-> Hlt]. injection Hl as <-.
    split; [by destruct (truthy _)|]. intros Hn. exfalso. apply Hn. lia.
  - split; [|done]. intros _ [H0 Hlt].
    eapply list_find_None in Hfind.
    assert ((id <$> slots (queue w)) !! Z.to_nat slotId = Some slotId) as Hl.
    { rewrite Hids, list_lookup_fmap, lookup_seq_lt by lia. cbn. f_equal. lia. }
    rewrite list_lookup_fmap in Hl.
    destruct (slots (queue w) !! Z.to_nat slotId) as [s|] eqn:Hs; [|done].
    injection Hl as Hl. eapply Forall_lookup_1 in Hfind; [|exact Hs]. by apply Hfind.
Qed.

Lemma join_no_such_slot_witness :
  fst (join 99 "p1" (Some "p1") false None one_joined) = inl NoSuchSlot
  ↔ ¬ (0 ≤ 99 < requiredPlayerCount configTest).
Proof.
  apply (join_no_such_slot configTest one_joined 99 "p1" "p1" None).
  - split_and!; [discriminate | repeat constructor; cbn; lia | cbn; lia].
  - apply (run_reachable configTest 0 [ join_as 0 "p1" ]); vm_compute; reflexivity.
Defined.

(** ** What a successful call does *)

Lemma join_success slotId p player active sender w slot w' :
  join slotId p player active sender w = (inr slot, w') →
  ∃ i old,
    list_find (λ s, id s = slotId) (slots (queue w)) = Some (i, old)
    ∧ truthy (playerId old) = false
    ∧ slots (queue w') !! i = Some slot
    ∧ id slot = slotId ∧ gameClass slot = gameClass old ∧ playerId slot = Some p
    ∧ playerReady slot =
        (if decide (state (queue w) = Ready) then true
         else if decide (playerId old = Some p) then false else playerReady old)
    ∧ (∀ j s, j ≠ i → slots (queue w) !! j = Some s → playerId s ≠ Some p →
         slots (queue w') !! j = Some s)
    ∧ state (queue w') = state (queue w)
    ∧ tasks w' = tasks w ++ [TUpdateState]
    ∧ ∃ es, emitted w' = emitted w ++ es ++ [QueueSlotUpdate sender slot]
          ∧ Forall (λ e, ∃ s, e = QueueSlotUpdate None s ∧ playerId s = None) es.
Proof.
  unfold join. destruct player as [pname|]; [|done]. destruct active; [done|].
  destruct (list_find _ _) as [[i old]|] eqn:Hfind; [|done].
  destruct (truthy (playerId old)) eqn:Ht; [done|].
  intros [= <- <-]. exists i, old.
  pose proof Hfind as Hfind'. apply list_find_Some in Hfind' as (Hi & Hid & _).
  split_and!; try done.
  - cbn. apply list_lookup_insert_eq. rewrite length_fmap. by eapply lookup_lt_Some.
  - cbn. unfold vacate_if. by destruct (decide (state _ = _)), (decide (playerId old = _)).
  - cbn. unfold vacate_if. by destruct (decide (state _ = _)), (decide (playerId old = _)).
  - cbn. unfold vacate_if. by destruct (decide (state _ = _)), (decide (playerId old = _)).
  - cbn. unfold vacate_if. by destruct (decide (state _ = _)), (decide (playerId old = _)).
  - intros j s Hj Hs Hp. cbn. rewrite list_lookup_insert_ne by done.
    rewrite list_lookup_fmap, Hs. cbn. unfold vacate_if. by rewrite decide_False.
  - eexists. split; [cbn; by rewrite <- app_assoc|].
    apply Forall_fmap, Forall_fmap, Forall_forall. intros s Hs. cbn.
    apply list_elem_of_filter in Hs as [Hp _]. eexists. split; [done|].
    unfold vacate_if. by rewrite decide_True.
Qed.

(** X3. A [join] that succeeds seats [p] in the first slot with id
    [slotId], which was free; the slot keeps id and class and is confirmed
    at once when the queue is [ready] (otherwise it keeps the flag it had);
    slots of other players are untouched; the life cycle is unchanged;
    one [updateState] is scheduled; and the events of the call are updates
    of vacated slots to everyone, then the update of the new slot to
    everyone but the sender. *)
Theorem join_seats_player slotId p player active sender w slot w' :
  join slotId p player active sender w = (inr slot, w') →
  ∃ i old,
    list_find (λ s, id s = slotId) (slots (queue w)) = Some (i, old)
    ∧ truthy (playerId old) = false
    ∧ slots (queue w') !! i = Some slot
    ∧ id slot = slotId ∧ gameClass slot = gameClass old ∧ playerId slot = Some p
    ∧ playerReady slot =
        (if decide (state (queue w) = Ready) then true
         else if decide (playerId old = Some p) then false else playerReady old)
    ∧ (∀ j s, j ≠ i → slots (queue w) !! j = Some s → playerId s ≠ Some p →
         slots (queue w') !! j = Some s)
    ∧ state (queue w') = state (queue w)
    ∧ tasks w' = tasks w ++ [TUpdateState]
    ∧ ∃ es, emitted w' = emitted w ++ es ++ [QueueSlotUpdate sender slot]
          ∧ Forall (λ e, ∃ s, e = QueueSlotUpdate None s ∧ playerId s = None) es.
Proof. apply join_success. Qed.

Lemma join_seats_player_witness :
  ∃ i old,
    list_find (λ s, id s = 1) (slots (queue one_joined)) = Some (i, old)
    ∧ truthy (playerId old) = false
    ∧ slots (queue (snd (join 1 "p2" (Some "p2") false None one_joined))) !! i
      = Some (mkQueueSlot 1 "soldier" (Some "p2") false)
    ∧ id (mkQueueSlot 1 "soldier" (Some "p2") false) = 1
    ∧ gameClass (mkQueueSlot 1 "soldier" (Some "p2") false) = gameClass old
    ∧ playerId (mkQueueSlot 1 "soldier" (Some "p2") false) = Some "p2"
    ∧ playerReady (mkQueueSlot 1 "soldier" (Some "p2") false) =
        (if decide (state (queue one_joined) = Ready) then true
         else if decide (playerId old = Some "p2") then false else playerReady old)
    ∧ (∀ j s, j ≠ i → slots (queue one_joined) !! j = Some s → playerId s ≠ Some "p2" →
         slots (queue (snd (join 1 "p2" (Some "p2") false None one_joined))) !! j = Some s)
    ∧ state (queue (snd (join 1 "p2" (Some "p2") false None one_joined)))
      = state (queue one_joined)
    ∧ tasks (snd (join 1 "p2" (Some "p2") false None one_joined))
      = tasks one_joined ++ [TUpdateState]
    ∧ ∃ es, emitted (snd (join 1 "p2" (Some "p2") false None one_joined))
            = emitted one_joined ++ es
              ++ [QueueSlotUpdate None (mkQueueSlot 1 "soldier" (Some "p2") false)]
          ∧ Forall (λ e, ∃ s, e = QueueSlotUpdate None s ∧ playerId s = None) es.
Proof.
  apply (join_seats_player 1 "p2" (Some "p2") false None one_joined). reflexivity.
Defined.

(** X4. A [leave] that frees a slot frees the first slot of [p] and
    changes nothing else in the array; the slot keeps its confirmation
    flag, which can be set only when the queue is [waiting]; one
    [updateState] is scheduled and the freed slot is announced. *)
Theorem leave_frees_slot p sender w slot w' :
  leave p sender w = (inr (Some slot), w') →
  ∃ i old,
    list_find (λ s, playerId s = Some p) (slots (queue w)) = Some (i, old)
    ∧ slot = set_playerId None old
    ∧ slots (queue w') = <[i := slot]> (slots (queue w))
    ∧ (playerReady old = true → state (queue w) = Waiting)
    ∧ state (queue w') = state (queue w)
    ∧ tasks w' = tasks w ++ [TUpdateState]
    ∧ emitted w' = emitted w ++ [QueueSlotUpdate sender slot].
Proof.
  unfold leave. destruct (list_find _ _) as [[i old]|] eqn:Hfind; [|done].
  destruct (_ && _) eqn:Hc; [done|]. intros [= <- <-]. exists i, old.
  split_and!; try done. intros Hr. rewrite Hr in Hc. cbn in Hc.
  destruct (state (queue w)); done.
Qed.

Lemma leave_frees_slot_witness :
  ∃ i old,
    list_find (λ s, playerId s = Some "p1") (slots (queue one_joined)) = Some (i, old)
    ∧ mkQueueSlot 0 "soldier" None false = set_playerId None old
    ∧ slots (queue (snd (leave "p1" None one_joined)))
      = <[i := mkQueueSlot 0 "soldier" None false]> (slots (queue one_joined))
    ∧ (playerReady old = true → state (queue one_joined) = Waiting)
    ∧ state (queue (snd (leave "p1" None one_joined))) = state (queue one_joined)
    ∧ tasks (snd (leave "p1" None one_joined)) = tasks one_joined ++ [TUpdateState]
    ∧ emitted (snd (leave "p1" None one_joined))
      = emitted one_joined ++ [QueueSlotUpdate None (mkQueueSlot 0 "soldier" None false)].
Proof. apply (leave_frees_slot "p1" None one_joined). reflexivity. Defined.

(** X5. A call of [join], [leave] or [ready], whatever its outcome, leaves
    the life cycle, the map and the timer handle as they are and hands no
    game over; all it sends are slot updates, and all it schedules is one
    [updateState] or the continuation of [ready]. *)
Theorem calls_keep_lifecycle cfg a w w' :
  is_call a = true → exec cfg a w = Some w' →
  state (queue w') = state (queue w)
  ∧ map (queue w') = map (queue w)
  ∧ timer (queue w') = timer (queue w)
  ∧ games w' = games w
  ∧ Forall (λ e, ∃ sender s, e = QueueSlotUpdate sender s)
      (drop (length (emitted w)) (emitted w'))
  ∧ (tasks w' = tasks w
     ∨ tasks w' = tasks w ++ [TUpdateState]
     ∨ ∃ r sender, tasks w' = tasks w ++ [TReadyAwait r sender]).
Proof.
  destruct a as [slotId p player active sender | p sender | p sender | rnd
                | k rnd player | k];
    try done; intros _; cbn [exec].
  - intros [= <-]. unfold join. destruct player; [|by rewrite drop_all; auto 10].
    destruct active; [by rewrite drop_all; auto 10|].
    destruct (list_find _ _) as [[i old]|]; [|by rewrite drop_all; auto 10].
    destruct (truthy _); [by rewrite drop_all; auto 10|].
    cbn. split_and!; try done; [|by auto].
    rewrite <- app_assoc, drop_app_length. apply Forall_app. split.
    + apply Forall_fmap, Forall_forall. intros s0 _. cbn. eauto.
    + repeat constructor. eauto.
  - intros [= <-]. unfold leave.
    destruct (list_find _ _) as [[i old]|]; [|by rewrite drop_all; auto 10].
    destruct (_ && _); [by rewrite drop_all; auto 10|].
    cbn. split_and!; try done; [|by auto].
    rewrite drop_app_length. repeat constructor. eauto.
  - destruct (ready_check p w); intros [= <-]; cbn; rewrite drop_all; split_and!; eauto 10.
Qed.

Lemma calls_keep_lifecycle_witness :
  state (queue left_while_ready) = state (queue queue_ready)
  ∧ map (queue left_while_ready) = map (queue queue_ready)
  ∧ timer (queue left_while_ready) = timer (queue queue_ready)
  ∧ games left_while_ready = games queue_ready
  ∧ Forall (λ e, ∃ sender s, e = QueueSlotUpdate sender s)
      (drop (length (emitted queue_ready)) (emitted left_while_ready))
  ∧ (tasks left_while_ready = tasks queue_ready
     ∨ tasks left_while_ready = tasks queue_ready ++ [TUpdateState]
     ∨ ∃ r sender, tasks left_while_ready = tasks queue_ready ++ [TReadyAwait r sender]).
Proof.
  apply (calls_keep_lifecycle configTest (ActLeave "p1" None) queue_ready left_while_ready);
    reflexivity.
Defined.

(** ** [reset] *)

Lemma fresh_counts ss :
  Forall (λ s, playerId s = None ∧ playerReady s = false) ss →
  playerCount ss = 0 ∧ readyPlayerCount ss = 0 ∧ cleanup_slot <$> ss = ss.
Proof.
  unfold playerCount, readyPlayerCount.
  induction 1 as [|s ss [Hp Hr] _ (IH1 & IH2 & IH3)]; [done|].
  cbn. rewrite Hp, Hr. cbn. split_and!; [done|done|].
  rewrite IH3. f_equal. unfold cleanup_slot. rewrite Hr. destruct s; cbn in *. by rewrite Hp.
Qed.

(** X6. When the configuration requires at least one player, [reset]
    leaves a waiting queue with the slots of the layout, all free and
    unconfirmed, whatever the life cycle was; it hands no game over. *)
Theorem reset_fresh cfg rnd w :
  requiredPlayerCount cfg ≠ 0 →
  slots (queue (reset cfg rnd w)) = resetSlots cfg
  ∧ state (queue (reset cfg rnd w)) = Waiting
  ∧ playerCount (slots (queue (reset cfg rnd w))) = 0
  ∧ readyPlayerCount (slots (queue (reset cfg rnd w))) = 0
  ∧ games (reset cfg rnd w) = games w.
Proof.
  intros Hreq. destruct (fresh_counts _ (resetSlots_fresh cfg)) as (Hpc & Hrc & Hcl).
  assert (slots (queue (reset cfg rnd w)) = resetSlots cfg
          ∧ state (queue (reset cfg rnd w)) = Waiting
          ∧ games (reset cfg rnd w) = games w) as (H1 & H2 & H3).
  { unfold reset, updateState. cbv zeta. cbn [emit randomizeMap set_map upd_queue replace_slots queue slots state].
    rewrite Hpc. apply Z.eqb_neq in Hreq. rewrite Z.eqb_sym, Hreq.
    destruct (state (queue w)) eqn:Hs; cbn; [done| |].
    - unfold setState. cbn. rewrite Hs. rewrite decide_True by done. cbn. by rewrite Hcl.
    - unfold setState. cbn. rewrite Hs. rewrite decide_True by done. cbn. done. }
  by rewrite H1, H2, H3.
Qed.

Lemma reset_fresh_witness :
  slots (queue (reset configTest 0 queue_ready)) = resetSlots configTest
  ∧ state (queue (reset configTest 0 queue_ready)) = Waiting
  ∧ playerCount (slots (queue (reset configTest 0 queue_ready))) = 0
  ∧ readyPlayerCount (slots (queue (reset configTest 0 queue_ready))) = 0
  ∧ games (reset configTest 0 queue_ready) = games queue_ready.
Proof. apply (reset_fresh configTest 0 queue_ready). vm_compute. discriminate. Defined.

(** X7. When the configuration requires no player, the constructor ends
    with the queue [ready] and its timer started, since the empty queue is
    full; the next [updateState] puts it back to [waiting], since nobody
    is queued. *)
Theorem nothing_required_ready_at_once cfg rnd :
  requiredPlayerCount cfg = 0 →
  state (queue (new_QueueService cfg rnd)) = Ready
  ∧ timer (queue (new_QueueService cfg rnd)) = Some 0%nat
  ∧ tasks (new_QueueService cfg rnd) = [ TReadyUpTimeout 0 ]
  ∧ state (queue (updateState cfg (new_QueueService cfg rnd))) = Waiting.
Proof.
  intros Hreq. destruct (fresh_counts _ (resetSlots_fresh cfg)) as (Hpc & Hrc & Hcl).
  assert (new_QueueService cfg rnd =
          emit [QueueStateUpdate Ready] (set_state Ready (start_timer
            (emit [QueueMapUpdated (map (queue (randomizeMap cfg rnd
                     (emit [QueueSlotsReset (resetSlots cfg)]
                        (replace_slots (resetSlots cfg) initial_fields)))))]
               (randomizeMap cfg rnd (emit [QueueSlotsReset (resetSlots cfg)]
                  (replace_slots (resetSlots cfg) initial_fields))))))) as ->.
  { unfold new_QueueService, reset, updateState. cbv zeta.
    cbn [emit randomizeMap set_map upd_queue replace_slots queue slots state initial_fields].
    rewrite Hpc, Hreq. cbn. reflexivity. }
  split_and!; [done..|].
  unfold updateState. cbn [emit set_state start_timer set_timer upd_queue queue state slots
                           randomizeMap set_map replace_slots].
  rewrite Hpc. cbn. reflexivity.
Qed.

Lemma nothing_required_ready_at_once_witness :
  state (queue (new_QueueService configEmpty 0)) = Ready
  ∧ timer (queue (new_QueueService configEmpty 0)) = Some 0%nat
  ∧ tasks (new_QueueService configEmpty 0) = [ TReadyUpTimeout 0 ]
  ∧ state (queue (updateState configEmpty (new_QueueService configEmpty 0))) = Waiting.
Proof. apply (nothing_required_ready_at_once configEmpty 0). reflexivity. Defined.

(** ** The map *)

Lemma setState_map st w : map (queue (setState st w)) = map (queue w).
Proof.
  unfold setState. case_decide; [|done].
  by destruct (state (queue w)), st.
Qed.

Lemma updateState_map cfg w : map (queue (updateState cfg w)) = map (queue w).
Proof. unfold updateState. repeat case_match; try done; apply setState_map. Qed.

Lemma setState_emitted st w : ∃ es, emitted (setState st w) = emitted w ++ es.
Proof.
  unfold setState. case_decide; [|exists []; by rewrite app_nil_r].
  destruct (state (queue w)), st; cbn; try (eexists; reflexivity);
    try (eexists; by rewrite <- app_assoc).
Qed.

Lemma updateState_emitted cfg w : ∃ es, emitted (updateState cfg w) = emitted w ++ es.
Proof.
  unfold updateState.
  repeat case_match; try apply setState_emitted; exists []; by rewrite app_nil_r.
Qed.

(** X8. When some configured map differs from the current one, [reset]
    selects a configured map that differs from the current one, and
    announces it. *)
Theorem reset_selects_other_map cfg rnd w m0 :
  unit_interval rnd = true →
  m0 ∈ maps cfg → Some m0 ≠ map (queue w) →
  ∃ m, map (queue (reset cfg rnd w)) = Some m
     ∧ m ∈ maps cfg ∧ Some m ≠ map (queue w)
     ∧ QueueMapUpdated (Some m) ∈ emitted (reset cfg rnd w).
Proof.
  intros Hr Hm0 Hne. unfold reset. cbv zeta.
  set (w2 := emit _ (replace_slots _ w)).
  assert (map (queue w2) = map (queue w)) as Hw2 by done.
  destruct (randomizeMap_pool cfg rnd w2 Hr) as (m & Hm & Hin & Hdiff).
  { rewrite Hw2. intros Hnil.
    assert (m0 ∈ filter (λ m, Some m ≠ map (queue w)) (maps cfg)) as Hf
      by by apply list_elem_of_filter.
    rewrite Hnil in Hf. by apply not_elem_of_nil in Hf. }
  exists m. rewrite updateState_map. cbn [emit queue]. rewrite Hm, <- Hw2.
  split_and!; [done..|].
  match goal with |- _ ∈ emitted (updateState _ ?w4) =>
    destruct (updateState_emitted cfg w4) as [es ->] end.
  cbn. rewrite !elem_of_app. left. right. by apply list_elem_of_singleton.
Qed.

Lemma reset_selects_other_map_witness :
  ∃ m, map (queue (reset configTest 0 queue_ready)) = Some m
     ∧ m ∈ maps configTest ∧ Some m ≠ map (queue queue_ready)
     ∧ QueueMapUpdated (Some m) ∈ emitted (reset configTest 0 queue_ready).
Proof.
  apply (reset_selects_other_map configTest 0 queue_ready "cp_process_final").
  - reflexivity.
  - cbn. apply list_elem_of_In. cbn. auto.
  - discriminate.
Defined.

(** ** Life-cycle events *)

Lemma setState_events st w :
  st ≠ state (queue w) →
  state (queue (setState st w)) = st
  ∧ ∃ es, emitted (setState st w) = emitted w ++ es ++ [QueueStateUpdate st]
        ∧ Forall is_slot_update_to_all es.
Proof.
  intros Hne. unfold setState. rewrite decide_True by done. split; [done|].
  destruct (state (queue w)), st; try done; cbn;
    try (exists []; split; [done|constructor]).
  eexists. split; [by rewrite <- app_assoc|].
  apply Forall_fmap, Forall_forall. intros s _. by eexists.
Qed.

(** X9. [updateState] and [readyUpTimeout] either change nothing at all,
    or change the life cycle and send, after slot updates to everyone (if
    any), the state update with the new life cycle as their last event. *)
Theorem lifecycle_event_last cfg w :
  (updateState cfg w = w
   ∨ state (queue (updateState cfg w)) ≠ state (queue w)
     ∧ ∃ es, emitted (updateState cfg w)
             = emitted w ++ es ++ [QueueStateUpdate (state (queue (updateState cfg w)))]
           ∧ Forall is_slot_update_to_all es)
  ∧ (readyUpTimeout cfg w = w
     ∨ state (queue (readyUpTimeout cfg w)) ≠ state (queue w)
       ∧ ∃ es, emitted (readyUpTimeout cfg w)
               = emitted w ++ es ++ [QueueStateUpdate (state (queue (readyUpTimeout cfg w)))]
             ∧ Forall is_slot_update_to_all es).
Proof.
  assert (∀ st, setState st w = w
    ∨ state (queue (setState st w)) ≠ state (queue w)
      ∧ ∃ es, emitted (setState st w)
              = emitted w ++ es ++ [QueueStateUpdate (state (queue (setState st w)))]
            ∧ Forall is_slot_update_to_all es) as Hset.
  { intros st. destruct (decide (st = state (queue w))) as [->|Hne].
    - left. unfold setState. by rewrite decide_False by (by intros H; apply H).
    - right. destruct (setState_events st w Hne) as [-> H]. done. }
  split.
  - unfold updateState. repeat case_match; auto.
  - unfold readyUpTimeout. case_match; auto.
Qed.

(** ** The deadline of a ready queue *)

Lemma deadline_same w w' :
  state (queue w') = state (queue w) → timer (queue w') = timer (queue w) →
  (∀ t, t ∈ tasks w → t ∈ tasks w') →
  deadline_pending w → deadline_pending w'.
Proof.
  intros Hs Ht Hsub Hd Hr. rewrite Hs in Hr. destruct (Hd Hr) as (h & Hh & Hin).
  exists h. rewrite Ht. auto.
Qed.

Lemma deadline_updateState cfg w :
  deadline_pending w → deadline_pending (updateState cfg w).
Proof.
  intros Hd. unfold updateState. destruct (state (queue w)) eqn:Hs.
  - destruct (_ =? _); [|done]. unfold setState. rewrite Hs, decide_True by done.
    intros _. cbn. eexists. split; [done|]. apply elem_of_app. right.
    by apply list_elem_of_singleton.
  - destruct (_ =? 0).
    { unfold setState. rewrite Hs, decide_True by done. intros Hr. cbn in Hr. done. }
    destruct (_ =? _); [|done].
    unfold setState. rewrite Hs, decide_True by done. intros Hr. cbn in Hr. done.
  - unfold setState. rewrite Hs, decide_True by done. intros Hr. cbn in Hr. done.
Qed.

Lemma readyUpTimeout_not_ready cfg w : state (queue (readyUpTimeout cfg w)) ≠ Ready.
Proof.
  unfold readyUpTimeout, setState.
  destruct (_ =? _); case_decide as Hd; cbn; try done;
    try apply dec_stable in Hd; by rewrite <- Hd.
Qed.

Lemma elem_of_delete_other {A} (l : list A) k x y :
  x ∈ l → l !! k = Some y → x ≠ y → x ∈ delete k l.
Proof.
  revert k. induction l as [|a l IH]; intros k Hx Hk Hne; [by apply not_elem_of_nil in Hx|].
  destruct k as [|k]; cbn in *.
  - injection Hk as ->. apply elem_of_cons in Hx as [->|Hx]; done.
  - apply elem_of_cons in Hx as [->|Hx]; [by left|]. right. by eapply IH.
Qed.

(** X10. In every reachable world in which the queue is [ready], the
    timer handle is set and the timeout it names is still pending: a queue
    does not stay [ready] past its deadline. *)
Theorem ready_deadline_pending cfg w :
  reachable cfg w → state (queue w) = Ready →
  ∃ h, timer (queue w) = Some h ∧ TReadyUpTimeout h ∈ tasks w.
Proof.
  intros Hw. change (deadline_pending w).
  induction Hw as [rnd _|a w w' _ IH Hexec].
  - unfold new_QueueService, reset. cbv zeta. apply deadline_updateState. by intros ?.
  - destruct a as [slotId p player active sender | p sender | p sender | rnd
                  | k rnd player | k];
      [| | | | |apply exec_reject in Hexec as [-> Hk]; intros Hr;
                destruct (IH Hr) as (h & Hh & Hin); exists h; split; [done|]; cbn;
                destruct Hk as [Hk|(r & sender & Hk)];
                (eapply elem_of_delete_other; [done|exact Hk|done])];
      cbn [exec] in Hexec.
    + injection Hexec as <-. revert IH. apply deadline_same.
      * unfold join. repeat case_match; done.
      * unfold join. repeat case_match; done.
      * intros t Ht. unfold join. repeat case_match; cbn; rewrite ?elem_of_app; auto.
    + injection Hexec as <-. revert IH. apply deadline_same.
      * unfold leave. repeat case_match; done.
      * unfold leave. repeat case_match; done.
      * intros t Ht. unfold leave. repeat case_match; cbn; rewrite ?elem_of_app; auto.
    + destruct (ready_check p w); injection Hexec as <-; [done|].
      revert IH. apply deadline_same; [done|done|]. intros t Ht. cbn.
      apply elem_of_app. by left.
    + destruct (unit_interval rnd); [|done]. injection Hexec as <-.
      unfold reset. cbv zeta. apply deadline_updateState. revert IH.
      apply deadline_same; done.
    + destruct (tasks w !! k) as [t|] eqn:Hk; [|done]. cbn in Hexec.
      assert ((∀ h, t ≠ TReadyUpTimeout h) → deadline_pending (remove_task k w)) as Hrem.
      { intros Hne Hr. destruct (IH Hr) as (h & Hh & Hin). exists h. split; [done|].
        cbn. eapply elem_of_delete_other; [done|done|]. intros <-. by eapply Hne. }
      destruct t; cbn [fire] in Hexec.
      * injection Hexec as <-. apply deadline_updateState, Hrem. done.
      * injection Hexec as <-. intros Hr. by apply readyUpTimeout_not_ready in Hr.
      * injection Hexec as <-. eapply deadline_same; [..|apply Hrem]; try done.
        intros t Ht. cbn. apply elem_of_app. by left.
      * destruct (unit_interval rnd); [|done]. injection Hexec as <-.
        unfold reset. cbv zeta. apply deadline_updateState.
        eapply deadline_same; [..|apply Hrem]; done.
      * unfold ready_resume in Hexec.
        destruct (deref slot (remove_task k w)) as [s|]; [|done]. cbn in Hexec.
        assert (deadline_pending (assign slot (set_playerReady true s) (remove_task k w))) as Ha.
        { eapply deadline_same; [..|apply Hrem]; try done;
            unfold assign; by case_decide. }
        destruct player; injection Hexec as <-; [|done].
        revert Ha. apply deadline_same; [done|done|].
        intros t Ht. cbn. apply elem_of_app. by left.
Qed.

Lemma ready_deadline_pending_witness :
  ∃ h, timer (queue queue_ready) = Some h ∧ TReadyUpTimeout h ∈ tasks queue_ready.
Proof.
  apply (ready_deadline_pending configTest queue_ready).
  - apply (run_reachable configTest 0 queue_filled); vm_compute; reflexivity.
  - reflexivity.
Defined.

(** ** The rosters handed over *)

Lemma setState_hands_over cfg st w :
  (st = Launching → readyPlayerCount (slots (queue w)) = requiredPlayerCount cfg) →
  hands_over cfg w (setState st w).
Proof.
  intros Hl. unfold setState. case_decide; [|by left].
  destruct (state (queue w)), st; cbn; try (by left). right. auto.
Qed.

Lemma updateState_hands_over cfg w : hands_over cfg w (updateState cfg w).
Proof.
  unfold updateState. destruct (state (queue w)).
  - destruct (_ =? _); [|by left]. by apply setState_hands_over.
  - destruct (_ =? 0); [by apply setState_hands_over|].
    destruct (_ =? _) eqn:E; [|by left]. apply setState_hands_over.
    intros _. by apply Z.eqb_eq.
  - by apply setState_hands_over.
Qed.

Lemma readyUpTimeout_hands_over cfg w : hands_over cfg w (readyUpTimeout cfg w).
Proof.
  unfold readyUpTimeout. destruct (_ =? _) eqn:E; apply setState_hands_over; [|done].
  intros _. by apply Z.eqb_eq.
Qed.

Lemma hands_over_ok cfg w0 w w' :
  games w = games w0 → same_layout cfg (slots (queue w)) →
  hands_over cfg w w' →
  Forall (roster_ok cfg) (games w0) → Forall (roster_ok cfg) (games w').
Proof.
  intros Hg Hl [->|[-> Hc]] Hok; rewrite Hg; [done|].
  apply Forall_app. split; [done|]. by repeat constructor.
Qed.

Lemma reachable_rosters cfg w :
  reachable cfg w → Forall (roster_ok cfg) (games w).
Proof.
  induction 1 as [rnd _|a w w' Hw IH Hexec].
  - unfold new_QueueService, reset. cbv zeta.
    eapply (hands_over_ok cfg initial_fields); [| |apply updateState_hands_over|by constructor].
    + done.
    + apply same_layout_reset.
  - pose proof (reachable_same_layout cfg w Hw) as Hl.
    destruct a as [slotId p player active sender | p sender | p sender | rnd
                  | k rnd player | k];
      [| | | | |by apply exec_reject in Hexec as [-> _]];
      cbn [exec] in Hexec.
    + injection Hexec as <-. unfold join. repeat case_match; done.
    + injection Hexec as <-. unfold leave. repeat case_match; done.
    + destruct (ready_check p w); by injection Hexec as <-.
    + destruct (unit_interval rnd); [|done]. injection Hexec as <-.
      unfold reset. cbv zeta.
      eapply (hands_over_ok cfg w); [| |apply updateState_hands_over|done].
      * done.
      * apply same_layout_reset.
    + destruct (tasks w !! k) as [t|] eqn:Hk; [|done]. cbn in Hexec.
      destruct t; cbn [fire] in Hexec.
      * injection Hexec as <-.
        by eapply (hands_over_ok cfg w); [| |apply updateState_hands_over|].
      * injection Hexec as <-.
        by eapply (hands_over_ok cfg w); [| |apply readyUpTimeout_hands_over|].
      * by injection Hexec as <-.
      * destruct (unit_interval rnd); [|done]. injection Hexec as <-.
        unfold reset. cbv zeta.
        eapply (hands_over_ok cfg w); [| |apply updateState_hands_over|done].
        -- done.
        -- apply same_layout_reset.
      * unfold ready_resume in Hexec.
        destruct (deref slot (remove_task k w)) as [s|]; [|done]. cbn in Hexec.
        destruct player; injection Hexec as <-; cbn; unfold assign; by case_decide.
Qed.

(** X11. Every roster that a reachable service of a valid configuration
    has passed to [gameService.create] has the configured layout, one slot
    per required player, and every slot of it is confirmed. *)
Theorem rosters_fully_confirmed cfg w roster m :
  valid_config cfg → reachable cfg w → (roster, m) ∈ games w →
  Forall (λ s, playerReady s = true) roster
  ∧ Z.of_nat (length roster) = requiredPlayerCount cfg
  ∧ id <$> roster = id <$> resetSlots cfg
  ∧ gameClass <$> roster = gameClass <$> resetSlots cfg.
Proof.
  intros Hv Hw Hin.
  pose proof (reachable_rosters cfg w Hw) as Hok.
  eapply Forall_forall in Hok; [|exact Hin]. destruct Hok as [Hl Hc]. cbn in Hl, Hc.
  destruct (same_layout_fmap cfg roster Hl) as [H1 H2].
  assert (Z.of_nat (length roster) = requiredPlayerCount cfg) as Hlen.
  { rewrite <- (Forall2_length _ _ _ Hl), requiredPlayerCount_sum.
    rewrite resetSlots_layout_spec. unfold layout_spec. rewrite length_imap.
    by apply length_layout_roles, valid_config_nonneg. }
  split_and!; try done. apply readyPlayerCount_full. by rewrite Hlen.
Qed.

Lemma rosters_fully_confirmed_witness :
  Forall (λ s, playerReady s = true)
    [ mkQueueSlot 0 "soldier" (Some "p1") true; mkQueueSlot 1 "soldier" (Some "p2") true ]
  ∧ Z.of_nat (length [ mkQueueSlot 0 "soldier" (Some "p1") true;
                       mkQueueSlot 1 "soldier" (Some "p2") true ])
    = requiredPlayerCount configTest
  ∧ id <$> [ mkQueueSlot 0 "soldier" (Some "p1") true;
             mkQueueSlot 1 "soldier" (Some "p2") true ] = id <$> resetSlots configTest
  ∧ gameClass <$> [ mkQueueSlot 0 "soldier" (Some "p1") true;
                    mkQueueSlot 1 "soldier" (Some "p2") true ]
    = gameClass <$> resetSlots configTest.
Proof.
  apply (rosters_fully_confirmed configTest first_launch _ (Some "cp_badlands")).
  - split_and!; [discriminate | repeat constructor; cbn; lia | cbn; lia].
  - apply (run_reachable configTest 0 (p1_p2_confirmed ++ [ serve_task 1 ]));
      vm_compute; reflexivity.
  - apply list_elem_of_In. cbn. left. reflexivity.
Defined.

(** ** Joining and leaving *)

Lemma vacate_if_absent p (ss : list QueueSlot) :
  (∀ s, s ∈ ss → playerId s ≠ Some p) → vacate_if p <$> ss = ss.
Proof.
  intros Habs. induction ss as [|s ss IH]; [done|]. cbn. rewrite IH.
  - unfold vacate_if. rewrite decide_False; [done|]. apply Habs. by left.
  - intros s' Hs'. apply Habs. by right.
Qed.

Lemma filter_absent p (ss : list QueueSlot) :
  (∀ s, s ∈ ss → playerId s ≠ Some p) → filter (λ s, playerId s = Some p) ss = [].
Proof.
  intros Habs. induction ss as [|s ss IH]; [done|].
  rewrite filter_cons, decide_False by (apply Habs; by left).
  apply IH. intros s' Hs'. apply Habs. by right.
Qed.

(** X12. In a waiting queue, a player without slot who joins a free slot
    and then leaves gets the slot back as it was: both calls succeed and the
    slot array is the one before the [join]. *)
Theorem join_leave_restores slotId p name sender sender' w i old :
  state (queue w) = Waiting →
  (∀ s, s ∈ slots (queue w) → playerId s ≠ Some p) →
  list_find (λ s, id s = slotId) (slots (queue w)) = Some (i, old) →
  playerId old = None →
  ∃ slot w1 w2,
    join slotId p (Some name) false sender w = (inr slot, w1)
    ∧ leave p sender' w1 = (inr (Some old), w2)
    ∧ slots (queue w2) = slots (queue w)
    ∧ state (queue w2) = Waiting.
Proof.
  intros Hs Habs Hfind Hold. unfold join. rewrite Hfind, Hold. cbn [truthy].
  do 3 eexists. split; [reflexivity|].
  pose proof Hfind as Hf. apply list_find_Some in Hf as (Hi & Hid & _).
  cbn [set_slots upd_queue emit schedule slotUpdated queue slots state].
  rewrite Hs, decide_False by done.
  rewrite (vacate_if_absent p _ Habs).
  assert (vacate_if p old = old) as Hv by (unfold vacate_if; by rewrite Hold, decide_False).
  rewrite Hv. unfold leave.
  cbn [set_slots upd_queue emit schedule slotUpdated queue slots state].
  assert (list_find (λ s, playerId s = Some p) (<[i:=set_playerId (Some p) old]> (slots (queue w)))
          = Some (i, set_playerId (Some p) old)) as ->.
  { apply list_find_Some. split_and!.
    - apply list_lookup_insert_eq. by eapply lookup_lt_Some.
    - done.
    - intros j s Hj Hlt. rewrite list_lookup_insert_ne in Hj by lia.
      apply Habs. by eapply list_elem_of_lookup_2. }
  rewrite Hs. rewrite andb_false_r. 
  assert (set_playerId None (set_playerId (Some p) old) = old) as ->
    by (destruct old; cbn in *; by rewrite Hold).
  split; [reflexivity|]. cbn. split; [|done].
  rewrite list_insert_insert_eq. by apply list_insert_id.
Qed.

(** X13. A player who joins while the queue is [ready] is confirmed by the
    [join] itself, so a [leave] right after it is refused. *)
Theorem join_while_ready_binds cfg slotId p player active sender sender' w slot w1 :
  reachable cfg w → state (queue w) = Ready →
  join slotId p player active sender w = (inr slot, w1) →
  playerReady slot = true
  ∧ leave p sender' w1 = (inl CannotUnready, w1).
Proof.
  intros Hw Hs Hjoin.
  assert (reachable cfg w1) as Hw1.
  { eapply (reachable_step cfg (ActJoin slotId p player active sender)); [exact Hw|].
    cbn. by rewrite Hjoin. }
  pose proof (reachable_single_occupancy cfg w1 Hw1) as Hso.
  destruct (join_success _ _ _ _ _ _ _ _ Hjoin)
    as (i & old & _ & _ & Hi & _ & _ & Hp & Hr & _ & Hs1 & _).
  rewrite Hs, decide_True in Hr by done. split; [done|].
  rewrite Hs in Hs1.
  unfold leave.
  destruct (list_find _ _) as [[j s]|] eqn:Hfj.
  - apply list_find_Some in Hfj as (Hj & Hpj & _).
    assert (j = i) as -> by by eapply (Hso j i s slot p).
    rewrite Hi in Hj. injection Hj as <-. rewrite Hr, Hs1. done.
  - eapply list_find_None, Forall_lookup_1 in Hfj; [|exact Hi]. done.
Qed.

Lemma join_leave_restores_witness :
  ∃ slot w1 w2,
    join 1 "p2" (Some "p2") false None one_joined = (inr slot, w1)
    ∧ leave "p2" None w1 = (inr (Some (mkQueueSlot 1 "soldier" None false)), w2)
    ∧ slots (queue w2) = slots (queue one_joined)
    ∧ state (queue w2) = Waiting.
Proof.
  apply (join_leave_restores 1 "p2" "p2" None None one_joined 1%nat
           (mkQueueSlot 1 "soldier" None false)).
  - reflexivity.
  - intros s Hs. apply list_elem_of_In in Hs. cbn in Hs.
    destruct Hs as [<-|[<-|[]]]; discriminate.
  - reflexivity.
  - reflexivity.
Defined.

Lemma join_while_ready_binds_witness :
  playerReady (mkQueueSlot 0 "soldier" (Some "p3") true) = true
  ∧ leave "p3" None (snd (join 0 "p3" (Some "p3") false None left_while_ready))
    = (inl CannotUnready, snd (join 0 "p3" (Some "p3") false None left_while_ready)).
Proof.
  apply (join_while_ready_binds configTest 0 "p3" (Some "p3") false None None left_while_ready).
  - apply (run_reachable configTest 0 p1_left_while_ready); vm_compute; reflexivity.
  - reflexivity.
  - reflexivity.
Defined.

(** ** When a player goes offline *)

(** X14. After the handler of ['player left'] has run on a reachable
    world, the player still holds a slot only if that slot is confirmed and
    the queue is not [waiting], and then the handler changed nothing; in
    every other case the player holds no slot any more. *)
Theorem player_left_keeps_confirmed cfg w p s :
  reachable cfg w →
  s ∈ slots (queue (player_left p w)) → playerId s = Some p →
  playerReady s = true ∧ state (queue w) ≠ Waiting ∧ player_left p w = w.
Proof.
  intros Hw. pose proof (reachable_single_occupancy cfg w Hw) as Hso.
  unfold player_left, leave.
  destruct (list_find _ _) as [[i old]|] eqn:Hfind.
  - pose proof Hfind as Hf. apply list_find_Some in Hf as (Hi & Hp & _).
    destruct (playerReady old && _) eqn:Hc.
    + cbn [snd]. intros Hs Hps. apply list_elem_of_lookup_1 in Hs as [j Hj].
      assert (j = i) as -> by by eapply (Hso j i s old p).
      rewrite Hi in Hj. injection Hj as <-.
      apply andb_true_iff in Hc as [Hr Hst]. split_and!; [done| |done].
      intros Hw0. rewrite Hw0 in Hst. done.
    + cbn. intros Hs Hps. exfalso. apply list_elem_of_lookup_1 in Hs as [j Hj].
      apply list_lookup_insert_Some in Hj as [(-> & <- & _)|(Hne & Hj)]; [done|].
      apply Hne. by eapply (Hso i j old s p).
  - cbn [snd]. intros Hs Hps. exfalso.
    eapply list_find_None, Forall_forall in Hfind; [|exact Hs]. done.
Qed.

Lemma player_left_keeps_confirmed_witness :
  playerReady (mkQueueSlot 0 "soldier" (Some "p1") true) = true
  ∧ state (queue one_confirmed) ≠ Waiting
  ∧ player_left "p1" one_confirmed = one_confirmed.
Proof.
  apply (player_left_keeps_confirmed configTest one_confirmed "p1").
  - apply (run_reachable configTest 0 p1_confirmed); vm_compute; reflexivity.
  - apply list_elem_of_In. cbn. left. reflexivity.
  - reflexivity.
Defined.

(** ** The timer when everybody has confirmed *)

(** X15. When the ready-up timeout fires with as many confirmed slots as
    players required, the life cycle is [launching] afterwards and the
    slots are untouched; the game is handed over (and the timer handle
    dropped) exactly when the queue was [ready]: fired in another state,
    the timeout hands nothing over. *)
Theorem readyUpTimeout_all_confirmed cfg w :
  readyPlayerCount (slots (queue w)) = requiredPlayerCount cfg →
  state (queue (readyUpTimeout cfg w)) = Launching
  ∧ slots (queue (readyUpTimeout cfg w)) = slots (queue w)
  ∧ (state (queue w) = Ready →
       games (readyUpTimeout cfg w) = games w ++ [(slots (queue w), map (queue w))]
       ∧ tasks (readyUpTimeout cfg w) = tasks w ++ [TLaunchAwait]
       ∧ timer (queue (readyUpTimeout cfg w)) = None)
  ∧ (state (queue w) ≠ Ready →
       games (readyUpTimeout cfg w) = games w
       ∧ tasks (readyUpTimeout cfg w) = tasks w).
Proof.
  intros Hc. unfold readyUpTimeout. apply Z.eqb_eq in Hc. rewrite Hc.
  unfold setState. destruct (state (queue w)) eqn:Hs.
  - rewrite decide_True by done. cbn. split_and!; done.
  - rewrite decide_True by done. cbn. split_and!; done.
  - rewrite decide_False by (by intros H; apply H). split_and!; done.
Qed.

Lemma readyUpTimeout_all_confirmed_witness :
  state (queue (readyUpTimeout configTest both_confirmed)) = Launching
  ∧ slots (queue (readyUpTimeout configTest both_confirmed)) = slots (queue both_confirmed)
  ∧ (state (queue both_confirmed) = Ready →
       games (readyUpTimeout configTest both_confirmed)
       = games both_confirmed ++ [(slots (queue both_confirmed), map (queue both_confirmed))]
       ∧ tasks (readyUpTimeout configTest both_confirmed) = tasks both_confirmed ++ [TLaunchAwait]
       ∧ timer (queue (readyUpTimeout configTest both_confirmed)) = None)
  ∧ (state (queue both_confirmed) ≠ Ready →
       games (readyUpTimeout configTest both_confirmed) = games both_confirmed
       ∧ tasks (readyUpTimeout configTest both_confirmed) = tasks both_confirmed).
Proof. apply (readyUpTimeout_all_confirmed configTest both_confirmed). reflexivity. Defined.

(** ** A [ready] that resolves late *)

Lemma setState_detached st w : detached (setState st w) = detached w.
Proof. unfold setState. case_decide; [|done]. by destruct (state (queue w)), st. Qed.

Lemma updateState_detached cfg w : detached (updateState cfg w) = detached w.
Proof. unfold updateState. repeat case_match; try done; apply setState_detached. Qed.

Lemma reset_detached cfg rnd w :
  detached (reset cfg rnd w) = detached w ++ [slots (queue w)].
Proof. unfold reset. cbv zeta. by rewrite updateState_detached. Qed.

(** X16. When [reset] runs while a [ready] waits for its lookup, the
    [ready] still completes: it confirms the slot object it holds, which
    belongs to the replaced array, announces that slot and schedules an
    [updateState], and the new queue is not touched. *)
Theorem ready_after_reset cfg p name sender rnd w r :
  ready_check p w = inr r →
  ∃ old o,
    slots (queue w) !! idx r = Some old ∧ playerId old = Some p
    ∧ ready_resume r (Some name) sender (reset cfg rnd w) = Some o
    ∧ fst o = inr (set_playerReady true old)
    ∧ queue (snd o) = queue (reset cfg rnd w)
    ∧ emitted (snd o)
      = emitted (reset cfg rnd w) ++ [QueueSlotUpdate sender (set_playerReady true old)]
    ∧ tasks (snd o) = tasks (reset cfg rnd w) ++ [TUpdateState].
Proof.
  unfold ready_check. destruct (decide _); [done|].
  destruct (list_find _ _) as [[i old]|] eqn:Hfind; [|done]. intros [= <-]. cbn [idx arr].
  apply list_find_Some in Hfind as (Hi & Hp & _). exists old. eexists.
  split_and!; [done|done|..].
  - unfold ready_resume, deref. cbn [arr idx]. rewrite reset_detached, length_app. cbn [length].
    rewrite decide_False by lia. rewrite lookup_app_r by lia.
    rewrite Nat.sub_diag. cbn. rewrite Hi. cbn. reflexivity.
  - done.
  - cbn. unfold assign. cbn [arr idx]. rewrite reset_detached, length_app. cbn [length].
    by rewrite decide_False by lia.
  - cbn. unfold assign. cbn [arr idx]. rewrite reset_detached, length_app. cbn [length].
    by rewrite decide_False by lia.
  - cbn. unfold assign. cbn [arr idx]. rewrite reset_detached, length_app. cbn [length].
    by rewrite decide_False by lia.
Qed.

Lemma ready_after_reset_witness :
  ∃ old o,
    slots (queue queue_ready) !! 0%nat = Some old ∧ playerId old = Some "p1"
    ∧ ready_resume (mkSlotRef 1 0) (Some "p1") None (reset configTest 0 queue_ready) = Some o
    ∧ fst o = inr (set_playerReady true old)
    ∧ queue (snd o) = queue (reset configTest 0 queue_ready)
    ∧ emitted (snd o)
      = emitted (reset configTest 0 queue_ready)
        ++ [QueueSlotUpdate None (set_playerReady true old)]
    ∧ tasks (snd o) = tasks (reset configTest 0 queue_ready) ++ [TUpdateState].
Proof.
  apply (ready_after_reset configTest "p1" "p1" None 0 queue_ready (mkSlotRef 1 0)).
  reflexivity.
Defined.

Lemma readyPlayerCount_confirm ss i s s' :
  ss !! i = Some s → playerReady s = false → playerReady s' = true →
  readyPlayerCount (<[i := s']> ss) = readyPlayerCount ss + 1.
Proof.
  intros Hi Hs Hs'. unfold readyPlayerCount. rewrite !(count_fold playerReady).
  rewrite <- (take_drop_middle ss i s Hi) at 2.
  rewrite insert_take_drop by by eapply lookup_lt_Some.
  rewrite !filter_app, !filter_cons, !length_app.
  rewrite decide_True by done. rewrite decide_False by congruence.
  cbn [length]. lia.
Qed.

(** X26. When a player leaves while their [ready] waits for its lookup,
    the [ready] still completes: it confirms the slot that the [leave] has
    just freed. The queue, still [ready], then has a confirmed slot without
    occupant, and [readyPlayerCount] has grown by one. *)
Theorem ready_after_leave p name sender sender' w r slot w1 :
  ready_check p w = inr r →
  leave p sender w = (inr (Some slot), w1) →
  ∃ o,
    ready_resume r (Some name) sender' w1 = Some o
    ∧ slots (queue w1) !! idx r = Some slot
    ∧ playerId slot = None
    ∧ fst o = inr (set_playerReady true slot)
    ∧ slots (queue (snd o)) = <[idx r := set_playerReady true slot]> (slots (queue w1))
    ∧ state (queue (snd o)) = Ready
    ∧ readyPlayerCount (slots (queue (snd o))) = readyPlayerCount (slots (queue w)) + 1.
Proof.
  unfold ready_check, leave. destruct (decide _) as [|Hst]; [done|].
  apply dec_stable in Hst.
  destruct (list_find _ _) as [[i old]|] eqn:Hfind; [|done]. intros [= <-]. cbn [idx arr].
  apply list_find_Some in Hfind as (Hi & Hp & _).
  rewrite (bool_decide_eq_true_2 _ Hst), orb_true_l, andb_true_r.
  destruct (playerReady old) eqn:Hold; [done|]. intros [= <- <-].
  assert (i < length (slots (queue w)))%nat as Hlt by by eapply lookup_lt_Some.
  eexists. split_and!.
  - unfold ready_resume, deref. cbn [arr idx]. rewrite decide_True by done. cbn.
    rewrite list_lookup_insert_eq by done. cbn. reflexivity.
  - cbn. by rewrite list_lookup_insert_eq.
  - done.
  - done.
  - cbn. unfold assign. cbn [arr idx]. by rewrite decide_True.
  - cbn. unfold assign. cbn [arr idx]. by rewrite decide_True.
  - cbn. unfold assign. cbn [arr idx]. rewrite decide_True by done. cbn.
    rewrite list_insert_insert_eq. by eapply readyPlayerCount_confirm.
Qed.

Lemma ready_after_leave_witness :
  ∃ o,
    ready_resume (mkSlotRef 1 1) (Some "p2") None (snd (leave "p2" None one_confirmed)) = Some o
    ∧ slots (queue (snd (leave "p2" None one_confirmed))) !! 1%nat
      = Some (mkQueueSlot 1 "soldier" None false)
    ∧ playerId (mkQueueSlot 1 "soldier" None false) = None
    ∧ fst o = inr (set_playerReady true (mkQueueSlot 1 "soldier" None false))
    ∧ slots (queue (snd o))
      = <[1%nat := set_playerReady true (mkQueueSlot 1 "soldier" None false)]>
          (slots (queue (snd (leave "p2" None one_confirmed))))
    ∧ state (queue (snd o)) = Ready
    ∧ readyPlayerCount (slots (queue (snd o)))
      = readyPlayerCount (slots (queue one_confirmed)) + 1.
Proof.
  apply (ready_after_leave "p2" "p2" None None one_confirmed (mkSlotRef 1 1)
           (mkQueueSlot 1 "soldier" None false) (snd (leave "p2" None one_confirmed))).
  - reflexivity.
  - vm_compute. reflexivity.
Defined.

(** ** Games: teams *)

Lemma tally_assign gc t team ss :
  GameController.tally gc t (GameController.assign_teams team ss)
  = GameController.tally_roles gc t team (gameClass <$> ss).
Proof.
  unfold GameController.tally. revert team. induction ss as [|s ss IH]; intros team; [done|].
  cbn [GameController.assign_teams fmap list_fmap GameController.tally_roles].
  rewrite filter_cons. cbn [GameController.gameClass GameController.teamId].
  rewrite <- IH. by destruct (decide _).
Qed.

Lemma tally_roles_app gc t team r1 r2 :
  GameController.tally_roles gc t team (r1 ++ r2)
  = (GameController.tally_roles gc t team r1
     + GameController.tally_roles gc t (team + Z.of_nat (length r1)) r2)%nat.
Proof.
  revert team. induction r1 as [|r r1 IH]; intros team;
    cbn [app GameController.tally_roles length].
  - by rewrite Z.add_0_r.
  - rewrite IH.
    replace (team + 1 + Z.of_nat (length r1)) with (team + Z.of_nat (S (length r1))) by lia.
    lia.
Qed.

Lemma tally_roles_block gc t team k r :
  team mod 2 = 0 → t = "0" ∨ t = "1" →
  GameController.tally_roles gc t team (replicate (2 * k) r)
  = if decide (r = gc) then k else 0%nat.
Proof.
  intros Hev Ht. revert team Hev. induction k as [|k IH]; intros team Hev.
  - cbn. by destruct (decide _).
  - replace (2 * S k)%nat with (S (S (2 * k))) by lia.
    cbn [replicate GameController.tally_roles].
    rewrite IH by (rewrite <- Z.add_assoc; change (1 + 1) with (1 * 2); by rewrite Z.mod_add).
    assert ((team + 1) mod 2 = 1) as Hodd.
    { rewrite Z.add_mod, Hev by lia. done. }
    rewrite Hev, Hodd. cbn [GameController.show_bit Z.eqb].
    destruct (decide (r = gc)) as [->|Hne].
    + destruct Ht as [-> | ->].
      * rewrite decide_True by done. rewrite decide_False by (intros [_ ?]; done). lia.
      * rewrite decide_False by (intros [_ ?]; done). rewrite decide_True by done. lia.
    + rewrite !decide_False by (intros [? _]; done). lia.
Qed.

Lemma tally_roles_layout gc t team cfg cls :
  teamCount cfg = 2 → Forall (λ c, 0 ≤ count c) cls →
  team mod 2 = 0 → t = "0" ∨ t = "1" →
  GameController.tally_roles gc t team
    (concat (List.map (λ c, replicate (class_slots cfg c) (name c)) cls))
  = foldr Nat.add 0%nat
      ((λ c, if decide (name c = gc) then Z.to_nat (count c) else 0%nat) <$> cls).
Proof.
  intros Htc Hnn Hev Ht. revert team Hev.
  induction Hnn as [|c cls Hc _ IH]; intros team Hev; [done|].
  cbn [List.map concat fmap list_fmap foldr]. rewrite tally_roles_app.
  assert (class_slots cfg c = (2 * Z.to_nat (count c))%nat) as Hcs
    by (unfold class_slots; rewrite Htc; lia).
  rewrite Hcs, tally_roles_block, length_replicate by done.
  rewrite IH; [done|].
  rewrite Nat2Z.inj_mul, Z.mul_comm. by rewrite Z.mod_add.
Qed.

Lemma same_layout_roles cfg ss :
  same_layout cfg ss → gameClass <$> ss = layout_roles cfg.
Proof.
  intros Hl. destruct (same_layout_fmap cfg ss Hl) as [_ ->].
  rewrite resetSlots_layout_spec. unfold layout_spec.
  generalize (layout_roles cfg). intros roles.
  apply list_eq. intros i. rewrite list_lookup_fmap, list_lookup_imap.
  by destruct (roles !! i).
Qed.

(** X17. With two teams, the game built from a roster of the configured
    layout gives each team, for every class, exactly the number of players
    the configuration asks for per team: the alternation of [team++ % 2]
    splits every class evenly. *)
Theorem teams_get_equal_classes cfg ss gid gc :
  teamCount cfg = 2 → Forall (λ c, 0 ≤ count c) (classes cfg) →
  same_layout cfg ss →
  GameController.tally gc "0" (GameController.slots (GameController.new_game gid ss))
  = GameController.per_team cfg gc
  ∧ GameController.tally gc "1" (GameController.slots (GameController.new_game gid ss))
    = GameController.per_team cfg gc.
Proof.
  intros Htc Hnn Hl. cbn [GameController.new_game GameController.slots].
  rewrite !tally_assign, (same_layout_roles cfg ss Hl). unfold layout_roles.
  split; apply tally_roles_layout; auto.
Qed.

Lemma teams_get_equal_classes_witness :
  GameController.tally "scout" "0"
    (GameController.slots (GameController.new_game "g1" (resetSlots config6v6)))
  = GameController.per_team config6v6 "scout"
  ∧ GameController.tally "scout" "1"
      (GameController.slots (GameController.new_game "g1" (resetSlots config6v6)))
    = GameController.per_team config6v6 "scout".
Proof.
  apply (teams_get_equal_classes config6v6 (resetSlots config6v6) "g1" "scout").
  - reflexivity.
  - repeat constructor; cbn; lia.
  - apply same_layout_reset.
Defined.

(** ** Games: the callbacks *)

(** X20. A callback of a game ends in a [TypeError] exactly when no game
    of the collection has its id, and then nothing is written; otherwise it
    keeps the ids and the order of the collection, leaves every other game
    as it is and schedules nothing. *)
Theorem callback_touches_one_game t db :
  (GameController.run_task t db = inl GameController.TypeError
   ↔ ∀ g, g ∈ GameController.collection db →
          GameController.id g ≠ GameController.task_game t)
  ∧ ∀ db', GameController.run_task t db = inr db' →
      GameController.id <$> GameController.collection db'
      = GameController.id <$> GameController.collection db
      ∧ (∀ i g, GameController.collection db !! i = Some g →
           GameController.id g ≠ GameController.task_game t →
           GameController.collection db' !! i = Some g)
      ∧ GameController.timeouts db' = GameController.timeouts db.
Proof.
  assert (∀ gameId f,
    (∀ g, GameController.id (f g) = GameController.id g) →
    (GameController.update_game gameId f db = inl GameController.TypeError
     ↔ ∀ g, g ∈ GameController.collection db → GameController.id g ≠ gameId)
    ∧ ∀ db', GameController.update_game gameId f db = inr db' →
        GameController.id <$> GameController.collection db'
        = GameController.id <$> GameController.collection db
        ∧ (∀ i g, GameController.collection db !! i = Some g →
             GameController.id g ≠ gameId →
             GameController.collection db' !! i = Some g)
        ∧ GameController.timeouts db' = GameController.timeouts db) as Hupd.
  { intros gameId f Hf. unfold GameController.update_game, GameController.findById.
    destruct (list_find _ _) as [[i g]|] eqn:Hfind.
    - apply list_find_Some in Hfind as (Hi & Hid & _). split.
      + split; [done|]. intros Hall. exfalso. eapply Hall; [|exact Hid].
        by eapply list_elem_of_lookup_2.
      + intros db' [= <-]. cbn. split_and!; [|intros j g' Hj Hne|done].
        * rewrite list_fmap_insert, Hf. apply list_insert_id.
          by rewrite list_lookup_fmap, Hi.
        * rewrite list_lookup_insert_ne; [done|]. intros ->. congruence.
    - split; [|done]. split; [|done]. intros _ g Hg.
      eapply list_find_None, Forall_forall in Hfind; [|exact Hg]. done. }
  destruct t as [gameId cs|gameId|gameId]; cbn [GameController.run_task GameController.task_game];
    apply Hupd; done.
Qed.

(** ** Games: from creation to the end *)

Lemma list_find_app_fresh {A} (P : A → Prop) `{∀ x, Decision (P x)} (l : list A) x :
  Forall (λ y, ¬ P y) l → P x → list_find P (l ++ [x]) = Some (length l, x).
Proof.
  intros Hl Hx. apply list_find_Some. split_and!.
  - by rewrite lookup_app_r, Nat.sub_diag.
  - done.
  - intros j y Hj Hlt. rewrite lookup_app_l in Hj by done.
    by eapply Forall_lookup_1 in Hl.
Qed.

Lemma list_find_app_skip {A} (P : A → Prop) `{∀ x, Decision (P x)} (l : list A) x :
  ¬ P x → list_find P (l ++ [x]) = list_find P l.
Proof.
  intros Hx. induction l as [|a l IH]; cbn.
  - by rewrite decide_False.
  - destruct (decide (P a)); [done|]. by rewrite IH.
Qed.

Lemma update_last gid f c g ts ev :
  Forall (λ g', GameController.id g' ≠ gid) c → GameController.id g = gid →
  GameController.update_game gid f (GameController.mkDb (c ++ [g]) ts ev)
  = inr (GameController.mkDb (c ++ [f g]) ts (ev ++ [GameController.GameUpdated (f g)])).
Proof.
  intros Hfresh Hid. unfold GameController.update_game, GameController.findById.
  cbn [GameController.collection GameController.timeouts GameController.sent].
  rewrite (list_find_app_fresh _ c g) by done.
  do 2 f_equal. rewrite insert_app_r_alt by lia. by rewrite Nat.sub_diag.
Qed.

(** X21. [create] with a new id schedules three callbacks, due after 30,
    60 and 120 seconds. Served in that order on the collection it left,
    the first two leave the new game [started] with its connect string,
    and the third leaves it [ended] without connect string, as the last
    game of the collection; who is in an active game is then as before
    [create]. *)
Theorem game_runs_to_end cfg ss gid db :
  Forall (λ g, GameController.id g ≠ gid) (GameController.collection db) →
  ∃ due db3 db4,
    GameController.timeouts (GameController.create cfg ss gid db).2
    = GameController.timeouts db ++ due
    ∧ due.*1 = [ 30000; 60000; 120000 ]
    ∧ GameController.run_tasks (take 2 due.*2) (GameController.create cfg ss gid db).2
      = inr db3
    ∧ GameController.collection db3 = GameController.collection db ++
        [ GameController.set_state GameController.started
            (GameController.set_connectString
               (Some "connect melkor.tf:27016; password amarenka_mniam")
               (GameController.new_game gid ss)) ]
    ∧ GameController.run_tasks due.*2 (GameController.create cfg ss gid db).2 = inr db4
    ∧ GameController.collection db4 = GameController.collection db ++
        [ GameController.set_connectString None
            (GameController.set_state GameController.ended
               (GameController.set_state GameController.started
                  (GameController.set_connectString
                     (Some "connect melkor.tf:27016; password amarenka_mniam")
                     (GameController.new_game gid ss)))) ]
    ∧ ∀ p, GameController.activeGameForPlayer p db4
           = GameController.activeGameForPlayer p db.
Proof.
  intros Hfresh. eexists _, _, _. split; [reflexivity|]. split.
  { reflexivity. }
  cbn [fmap list_fmap snd take GameController.run_tasks GameController.run_task
       GameController.updateConnectString GameController.onGameStarted
       GameController.onGameEnded].
  unfold GameController.updateConnectString, GameController.onGameStarted,
    GameController.onGameEnded.
  cbv beta zeta iota delta [GameController.create snd].
  rewrite update_last by done. cbv beta iota.
  rewrite update_last by done.
  split; [reflexivity|]. split; [reflexivity|].
  rewrite update_last by done.
  split; [reflexivity|]. split; [reflexivity|].
  intros p. unfold GameController.activeGameForPlayer. cbn [GameController.collection].
  rewrite list_find_app_skip; [done|]. cbn. by intros [? _].
Qed.

Lemma game_runs_to_end_witness :
  ∃ due db3 db4,
    GameController.timeouts (GameController.create configTest first_roster "g1" one_old_game).2
    = GameController.timeouts one_old_game ++ due
    ∧ due.*1 = [ 30000; 60000; 120000 ]
    ∧ GameController.run_tasks (take 2 due.*2)
        (GameController.create configTest first_roster "g1" one_old_game).2
      = inr db3
    ∧ GameController.collection db3 = GameController.collection one_old_game ++
        [ GameController.set_state GameController.started
            (GameController.set_connectString
               (Some "connect melkor.tf:27016; password amarenka_mniam")
               (GameController.new_game "g1" first_roster)) ]
    ∧ GameController.run_tasks due.*2
        (GameController.create configTest first_roster "g1" one_old_game).2 = inr db4
    ∧ GameController.collection db4 = GameController.collection one_old_game ++
        [ GameController.set_connectString None
            (GameController.set_state GameController.ended
               (GameController.set_state GameController.started
                  (GameController.set_connectString
                     (Some "connect melkor.tf:27016; password amarenka_mniam")
                     (GameController.new_game "g1" first_roster)))) ]
    ∧ ∀ p, GameController.activeGameForPlayer p db4
           = GameController.activeGameForPlayer p one_old_game.
Proof.
  apply (game_runs_to_end configTest first_roster "g1" one_old_game).
  repeat constructor. cbn. discriminate.
Defined.

(** ** The first form of the queue *)

Lemma confirmed_occupied_fresh cfg : confirmed_occupied (resetSlots cfg).
Proof.
  eapply Forall_impl; [apply resetSlots_fresh|]. cbn. intros s [_ Hr] Hr'. congruence.
Qed.

Lemma confirmed_occupied_insert ss i s :
  confirmed_occupied ss → (playerReady s = true → playerId s ≠ None) →
  confirmed_occupied (<[i := s]> ss).
Proof. intros Hc Hs. by apply Forall_insert. Qed.

Lemma confirmed_occupied_vacate p ss :
  confirmed_occupied ss → confirmed_occupied (vacate_if p <$> ss).
Proof.
  intros Hc. apply Forall_fmap. eapply Forall_impl; [exact Hc|]. cbn.
  intros s Hs. unfold vacate_if. by destruct (decide _).
Qed.

Lemma Queue_updateState_slots cfg w :
  slots (queue (Queue.updateState cfg w)) = slots (queue w).
Proof.
  unfold Queue.updateState, Queue.setState. repeat case_match; done.
Qed.

Lemma Queue_exec_slots cfg a w w' :
  Queue.exec cfg a w = Some w' → slots_step cfg (slots (queue w)) (slots (queue w')).
Proof.
  destruct a as [slotId p sender | p sender | p sender | | k]; cbn [Queue.exec].
  - intros [= <-]. unfold Queue.join.
    destruct (list_find _ _) as [[i old]|] eqn:Hfind; [|apply slots_evolve, evolves_refl].
    destruct (truthy _); [apply slots_evolve, evolves_refl|].
    apply list_find_Some in Hfind as (Hi & _). cbn.
    eapply (slots_join _ _ _ _ _ p Hi); unfold vacate_if;
      destruct (decide (state _ = _)), (decide (playerId old = Some p)); reflexivity.
  - intros [= <-]. apply slots_evolve. unfold Queue.leave.
    destruct (list_find _ _) as [[i old]|] eqn:Hfind; [|apply evolves_refl].
    destruct (_ && _); [apply evolves_refl|].
    apply list_find_Some in Hfind as (Hi & _). cbn.
    eapply evolves_insert; [done|done|done|]. by left.
  - intros [= <-]. apply slots_evolve. unfold Queue.ready.
    destruct (decide _); [apply evolves_refl|].
    destruct (list_find _ _) as [[i old]|] eqn:Hfind; [|apply evolves_refl].
    apply list_find_Some in Hfind as (Hi & _). cbn.
    eapply evolves_insert; [done|done|done|]. by right.
  - intros [= <-]. apply slots_fresh. unfold Queue.reset.
    rewrite Queue_updateState_slots. apply evolves_refl.
  - destruct (tasks w !! k) as [[]|]; try done. intros [= <-].
    rewrite Queue_updateState_slots. apply slots_evolve, evolves_refl.
Qed.

Lemma Queue_reachable_confirmed cfg w :
  Queue.reachable cfg w → confirmed_occupied (slots (queue w)).
Proof.
  induction 1 as [|a w w' _ IH Hexec]; [apply confirmed_occupied_fresh|].
  destruct a as [slotId p sender | p sender | p sender | | k]; cbn [Queue.exec] in Hexec.
  - injection Hexec as <-. unfold Queue.join.
    destruct (list_find _ _) as [[i old]|]; [|done]. destruct (truthy _); [done|].
    cbn. apply confirmed_occupied_insert; [by apply confirmed_occupied_vacate|].
    by destruct (decide _).
  - injection Hexec as <-. unfold Queue.leave.
    destruct (list_find _ _) as [[i old]|]; [|done]. destruct (_ && _); [done|].
    cbn. by apply confirmed_occupied_insert.
  - injection Hexec as <-. unfold Queue.ready. destruct (decide _); [done|].
    destruct (list_find _ _) as [[i old]|] eqn:Hfind; [|done].
    apply list_find_Some in Hfind as (_ & Hp & _).
    cbn. apply confirmed_occupied_insert; [done|]. cbn. by rewrite Hp.
  - injection Hexec as <-. unfold Queue.reset. rewrite Queue_updateState_slots.
    apply confirmed_occupied_fresh.
  - destruct (tasks w !! k) as [[]|]; try done. injection Hexec as <-.
    by rewrite Queue_updateState_slots.
Qed.

Lemma Queue_reachable_slots cfg (P : list QueueSlot → Prop) :
  (∀ ss', evolves (resetSlots cfg) ss' → P ss') →
  (∀ ss ss', P ss → slots_step cfg ss ss' → P ss') →
  ∀ w, Queue.reachable cfg w → P (slots (queue w)).
Proof.
  intros Hnew Hstep w Hw. induction Hw as [|a w w' _ IH Hexec].
  - apply Hnew, evolves_refl.
  - eapply Hstep; [exact IH|]. by eapply Queue_exec_slots.
Qed.

Lemma Queue_reachable_state cfg w :
  Queue.reachable cfg w → state (queue w) ≠ Launching.
Proof.
  assert (∀ w, state (queue w) ≠ Launching →
               state (queue (Queue.updateState cfg w)) ≠ Launching) as Hupd.
  { intros w0 H0. unfold Queue.updateState, Queue.setState.
    repeat case_match; cbn; congruence. }
  induction 1 as [|a w w' _ IH Hexec]; [done|].
  destruct a as [slotId p sender | p sender | p sender | | k]; cbn [Queue.exec] in Hexec.
  - injection Hexec as <-. unfold Queue.join. repeat case_match; done.
  - injection Hexec as <-. unfold Queue.leave. repeat case_match; done.
  - injection Hexec as <-. unfold Queue.ready. repeat case_match; done.
  - injection Hexec as <-. by apply Hupd.
  - destruct (tasks w !! k) as [[]|]; try done. injection Hexec as <-. by apply Hupd.
Qed.

(** X22. In the first form of the queue ([src/queue/queue.ts]) every
    reachable world has an occupant in every confirmed slot, no player in
    two slots, the configured layout, and a life cycle that is never
    [launching]. *)
Theorem Queue_invariants cfg w :
  Queue.reachable cfg w →
  confirmed_occupied (slots (queue w))
  ∧ single_occupancy (slots (queue w))
  ∧ same_layout cfg (slots (queue w))
  ∧ state (queue w) ≠ Launching.
Proof.
  intros Hw. split_and!.
  - by eapply Queue_reachable_confirmed.
  - revert w Hw. apply Queue_reachable_slots.
    + intros ss' He. eapply single_occupancy_vacant, evolves_vacant; [|exact He].
      apply resetSlots_vacant.
    + intros ss ss' Hso [ss2 He | i slot slot' p _ _ _ Hp | ss2 He].
      * by eapply single_occupancy_evolves.
      * by apply single_occupancy_join.
      * eapply single_occupancy_vacant, evolves_vacant; [|exact He].
        apply resetSlots_vacant.
  - revert w Hw. apply Queue_reachable_slots.
    + intros ss' He. eapply same_layout_evolves; [apply same_layout_reset|done].
    + intros ss ss' Hl [ss2 He | i slot slot' p Hi Hid Hgc _ | ss2 He].
      * by eapply same_layout_evolves.
      * by eapply same_layout_join.
      * eapply same_layout_evolves; [apply same_layout_reset|done].
  - by eapply Queue_reachable_state.
Qed.

Lemma Queue_run_reachable cfg trace w :
  Queue.run cfg trace (Queue.new_Queue cfg) = Some w → Queue.reachable cfg w.
Proof.
  assert (Queue.reachable cfg (Queue.new_Queue cfg)) as H0 by constructor.
  revert H0. generalize (Queue.new_Queue cfg).
  induction trace as [|a trace IH]; intros w0 H0 Hrun; cbn in Hrun.
  - by injection Hrun as <-.
  - destruct (Queue.exec cfg a w0) as [w1|] eqn:E; [|done]. cbn in Hrun.
    eapply IH; [|exact Hrun]. by econstructor.
Qed.

Lemma Queue_invariants_witness :
  confirmed_occupied (slots (queue plain_ready))
  ∧ single_occupancy (slots (queue plain_ready))
  ∧ same_layout configTest (slots (queue plain_ready))
  ∧ state (queue plain_ready) ≠ Launching.
Proof.
  apply (Queue_invariants configTest plain_ready).
  apply (Queue_run_reachable configTest plain_filled). vm_compute. reflexivity.
Defined.

(** X23. In the first form of the queue a step takes the life cycle from
    [ready] back to [waiting] only when no player is left in the queue. *)
Theorem Queue_ready_until_empty cfg a w w' :
  Queue.exec cfg a w = Some w' →
  state (queue w) = Ready → state (queue w') ≠ Ready →
  playerCount (slots (queue w')) = 0.
Proof.
  assert (∀ w0, state (queue w0) = Ready →
            state (queue (Queue.updateState cfg w0)) ≠ Ready →
            playerCount (slots (queue (Queue.updateState cfg w0))) = 0) as Hupd.
  { intros w0 Hs. rewrite Queue_updateState_slots. unfold Queue.updateState. rewrite Hs.
    destruct (_ =? 0) eqn:E; [intros _; by apply Z.eqb_eq|]. intros Hne. done. }
  destruct a as [slotId p sender | p sender | p sender | | k]; cbn [Queue.exec].
  - intros [= <-] Hs Hne. exfalso. apply Hne. rewrite <- Hs.
    unfold Queue.join. repeat case_match; done.
  - intros [= <-] Hs Hne. exfalso. apply Hne. rewrite <- Hs.
    unfold Queue.leave. repeat case_match; done.
  - intros [= <-] Hs Hne. exfalso. apply Hne. rewrite <- Hs.
    unfold Queue.ready. repeat case_match; done.
  - intros [= <-] Hs. by apply Hupd.
  - destruct (tasks w !! k) as [[]|]; try done. intros [= <-] Hs. by apply Hupd.
Qed.

Lemma Queue_ready_until_empty_witness :
  playerCount (slots (queue (Queue.updateState configTest (remove_task 0 plain_deserted)))) = 0.
Proof.
  apply (Queue_ready_until_empty configTest (Queue.ActFire 0) plain_deserted).
  - reflexivity.
  - reflexivity.
  - discriminate.
Defined.

(** ** The queue with the timer, before players were evicted *)

Lemma playerCount_unready ss :
  playerCount (set_playerReady false <$> ss) = playerCount ss.
Proof.
  unfold playerCount. generalize 0. induction ss as [|s ss IH]; intros z; [done|].
  cbn. apply IH.
Qed.

(** X24. In the form of [src/unnamed/part_001], a ready-up timeout that
    finds the queue [ready] and not fully confirmed evicts nobody: every
    occupant stays, every confirmation is dropped, each slot is announced
    and the state update 'waiting' comes last. If the queue was full, the
    next [updateState] makes it [ready] again and starts a new timer. *)
Theorem TimedQueue_timeout_keeps_players cfg w :
  state (queue w) = Ready →
  readyPlayerCount (slots (queue w)) ≠ requiredPlayerCount cfg →
  state (queue (TimedQueue.readyUpTimeout cfg w)) = Waiting
  ∧ slots (queue (TimedQueue.readyUpTimeout cfg w)) = set_playerReady false <$> slots (queue w)
  ∧ playerId <$> slots (queue (TimedQueue.readyUpTimeout cfg w)) = playerId <$> slots (queue w)
  ∧ emitted (TimedQueue.readyUpTimeout cfg w)
    = emitted w ++ (QueueSlotUpdate None <$> (set_playerReady false <$> slots (queue w)))
      ++ [QueueStateUpdate Waiting]
  ∧ games (TimedQueue.readyUpTimeout cfg w) = games w
  ∧ (playerCount (slots (queue w)) = requiredPlayerCount cfg →
     state (queue (TimedQueue.updateState cfg (TimedQueue.readyUpTimeout cfg w))) = Ready
     ∧ timer (queue (TimedQueue.updateState cfg (TimedQueue.readyUpTimeout cfg w)))
       = Some (nextHandle w)
     ∧ TReadyUpTimeout (nextHandle w)
       ∈ tasks (TimedQueue.updateState cfg (TimedQueue.readyUpTimeout cfg w))).
Proof.
  intros Hs Hc. apply Z.eqb_neq in Hc.
  assert (TimedQueue.readyUpTimeout cfg w =
          set_state Waiting (emit [QueueStateUpdate Waiting]
            (emit (QueueSlotUpdate None <$> (set_playerReady false <$> slots (queue w)))
               (set_slots (set_playerReady false <$> slots (queue w)) w)))) as ->.
  { unfold TimedQueue.readyUpTimeout. rewrite Hc. cbv zeta.
    unfold TimedQueue.setState. cbn [emit set_slots upd_queue queue state].
    rewrite Hs, decide_True by done. reflexivity. }
  split_and!; try done.
  - cbn. rewrite <- list_fmap_compose. by apply list_fmap_ext.
  - cbn. by rewrite <- app_assoc.
  - intros Hfull. unfold TimedQueue.updateState.
    cbn [set_state emit set_slots upd_queue queue state slots].
    rewrite playerCount_unready, Hfull, Z.eqb_refl.
    unfold TimedQueue.setState. cbn [set_state emit set_slots upd_queue queue state slots].
    rewrite decide_True by done. cbn. split_and!; [done|done|].
    apply elem_of_app. right. by apply list_elem_of_singleton.
Qed.

Lemma TimedQueue_timeout_keeps_players_witness :
  state (queue (TimedQueue.readyUpTimeout configTest one_confirmed)) = Waiting
  ∧ slots (queue (TimedQueue.readyUpTimeout configTest one_confirmed))
    = set_playerReady false <$> slots (queue one_confirmed)
  ∧ playerId <$> slots (queue (TimedQueue.readyUpTimeout configTest one_confirmed))
    = playerId <$> slots (queue one_confirmed)
  ∧ emitted (TimedQueue.readyUpTimeout configTest one_confirmed)
    = emitted one_confirmed
      ++ (QueueSlotUpdate None <$> (set_playerReady false <$> slots (queue one_confirmed)))
      ++ [QueueStateUpdate Waiting]
  ∧ games (TimedQueue.readyUpTimeout configTest one_confirmed) = games one_confirmed
  ∧ (playerCount (slots (queue one_confirmed)) = requiredPlayerCount configTest →
     state (queue (TimedQueue.updateState configTest
                     (TimedQueue.readyUpTimeout configTest one_confirmed))) = Ready
     ∧ timer (queue (TimedQueue.updateState configTest
                       (TimedQueue.readyUpTimeout configTest one_confirmed)))
       = Some (nextHandle one_confirmed)
     ∧ TReadyUpTimeout (nextHandle one_confirmed)
       ∈ tasks (TimedQueue.updateState configTest
                  (TimedQueue.readyUpTimeout configTest one_confirmed))).
Proof.
  apply (TimedQueue_timeout_keeps_players configTest one_confirmed).
  - reflexivity.
  - vm_compute. discriminate.
Defined.
